(** * Seal configuration and root credentials of Vault, embedded in Rocq

    The development embeds two Go files:

    - [vault/seal_config.go]: the [SealConfig] record with its [Validate]
      and [Clone] methods and the [SealConfigType] constants;
    - [sdk/logical/root_credential.go]: [RootCredential], its [Validate]
      method and the constructor [GetRootCredential].

    Go values that live behind pointers or slices are kept in an explicit
    heap, so that sharing of backing arrays is visible; a run-time panic is
    the [None] outcome of a computation. *)

From Stdlib Require Import ZArith Lia Ascii.
From stdpp Require Import base option list strings gmap.

(** ** The Go run-time model shared by both packages *)

Module golang.

(** [error] values as the embedded code builds and receives them:
    [fmt.Errorf] with a constant format gives an [errorString]; the verb
    [%w] at the end of the format wraps the error passed for it. *)
Inductive error : Type :=
| errorString (msg : string)
| wrapError (prefix : string) (err : error).

(** The method [Error()] of the [error] interface. *)
Fixpoint Error (e : error) : string :=
  match e with
  | errorString msg => msg
  | wrapError prefix err => prefix +:+ Error err
  end.

(** [errors.Unwrap]. *)
Definition Unwrap (e : error) : option error :=
  match e with
  | errorString _ => None
  | wrapError _ err => Some err
  end.

(** A call that returns [(value, error)]: the value is used only when the
    error is [nil]. *)
Inductive result (A : Type) : Type :=
| Ok (a : A)
| Err (e : error).
Arguments Ok {A} a.
Arguments Err {A} e.

(** Backing arrays live in a store, indexed by their address; a slice
    header points into one of them.  [nilSlice] is the zero value. *)
Abbreviation addr := nat.
Abbreviation store A := (list (list A)).

Inductive slice : Type :=
| nilSlice
| mkSlice (array : addr) (off n cap : nat).

Definition len (s : slice) : nat :=
  match s with
  | nilSlice => 0
  | mkSlice _ _ n _ => n
  end.

(** [cap(s)]. *)
Definition cap (s : slice) : nat :=
  match s with
  | nilSlice => 0
  | mkSlice _ _ _ c => c
  end.

(** The array a slice points into, if any. *)
Definition array_of (s : slice) : option addr :=
  match s with
  | nilSlice => None
  | mkSlice a _ _ _ => Some a
  end.

Section slices.
Context {A : Type}.

(** The header points into an allocated array and stays inside it. *)
Definition valid (st : store A) (s : slice) : Prop :=
  match s with
  | nilSlice => True
  | mkSlice a off n cap =>
      match st !! a with
      | Some arr => n ≤ cap ∧ off + cap ≤ length arr
      | None => False
      end
  end.

(** The elements a slice shows: [s[0], ..., s[len(s)-1]]. *)
Definition contents (st : store A) (s : slice) : list A :=
  match s with
  | nilSlice => []
  | mkSlice a off n _ => take n (drop off (default [] (st !! a)))
  end.

(** [s[i]] as an expression; out of range is a run-time panic. *)
Definition index (st : store A) (s : slice) (i : nat) : option A :=
  match s with
  | nilSlice => None
  | mkSlice a off n _ =>
      if decide (i < n) then arr ← st !! a; arr !! (off + i) else None
  end.

(** [s[i] = v]; out of range is a run-time panic. *)
Definition setIndex (st : store A) (s : slice) (i : nat) (v : A)
  : option (store A) :=
  match s with
  | nilSlice => None
  | mkSlice a off n _ =>
      if decide (i < n) then
        arr ← st !! a;
        if decide (off + i < length arr)
        then Some (<[a := <[off + i := v]> arr]> st)
        else None
      else None
  end.

(** [make([]T, n)]: a new array of [n] zero values, at the next free
    address, with a slice over all of it. *)
Definition make (zero : A) (st : store A) (n : nat) : store A * slice :=
  (st ++ [replicate n zero], mkSlice (length st) 0 n n).

(** [copy(dst, src)]: the first [min(len(dst), len(src))] elements of
    [src] overwrite those of [dst]; the count is returned. *)
Definition copy (st : store A) (dst src : slice) : store A * nat :=
  let k := len dst `min` len src in
  match dst with
  | nilSlice => (st, k)
  | mkSlice a off _ _ =>
      (alter (list_inserts off (take k (contents st src))) a st, k)
  end.

End slices.

End golang.

(** ** Package [vault]: seal_config.go *)

Module vault.
Import golang.

(** The struct [SealConfig], field by field.  Go's [int] is kept as a
    mathematical integer: the methods only compare these fields. *)
Record SealConfig : Type := mkSealConfig {
  Type_ : string;
  SecretShares : Z;
  SecretThreshold : Z;
  PGPKeys : slice;               (* []string *)
  Nonce : string;
  Backup : bool;
  StoredShares : Z;
  RekeyProgress : slice;         (* [][]byte *)
  VerificationRequired : bool;
  VerificationKey : slice;       (* []byte *)
  VerificationNonce : string;
  VerificationProgress : slice;  (* [][]byte *)
  Name : string;
}.

(** The heap: [SealConfig] structs reached through [*SealConfig], and the
    backing arrays of [[]string], [[]byte] and [[][]byte] slices. *)
Record heap : Type := mkHeap {
  h_cfg : list SealConfig;
  h_str : store string;
  h_byte : store Byte.byte;
  h_share : store slice;
}.

(** [*SealConfig]: [None] is the nil pointer. *)
Abbreviation ptr := (option addr).

(** Computations over the heap that may panic. *)
Definition M (A : Type) : Type := heap → option (A * heap).

Definition ret {A} (a : A) : M A := λ h, Some (a, h).

Definition bind {A B} (m : M A) (k : A → M B) : M B :=
  λ h, match m h with
       | Some (a, h') => k a h'
       | None => None
       end.

Notation "x <- m ;; k" := (bind m (λ x, k))
  (at level 100, m at next level, right associativity).
Notation "m ;; k" := (bind m (λ _, k))
  (at level 100, right associativity).

(** [*p] for reading; a nil pointer panics. *)
Definition load (p : ptr) : M SealConfig :=
  λ h, match p with
       | Some a => c ← h_cfg h !! a; Some (c, h)
       | None => None
       end.

(** [&SealConfig{...}]: a new struct at the next free address. *)
Definition new (c : SealConfig) : M ptr :=
  λ h, Some (Some (length (h_cfg h)),
             mkHeap (h_cfg h ++ [c]) (h_str h) (h_byte h) (h_share h)).

(** [p.f = v], given as the update of the struct. *)
Definition assign (p : ptr) (f : SealConfig → SealConfig) : M unit :=
  λ h, match p with
       | Some a =>
           _ ← h_cfg h !! a;
           Some (tt, mkHeap (alter f a (h_cfg h)) (h_str h) (h_byte h) (h_share h))
       | None => None
       end.

Definition set_PGPKeys (s : slice) (c : SealConfig) : SealConfig :=
  mkSealConfig (Type_ c) (SecretShares c) (SecretThreshold c) s (Nonce c)
    (Backup c) (StoredShares c) (RekeyProgress c) (VerificationRequired c)
    (VerificationKey c) (VerificationNonce c) (VerificationProgress c) (Name c).

Definition set_VerificationKey (s : slice) (c : SealConfig) : SealConfig :=
  mkSealConfig (Type_ c) (SecretShares c) (SecretThreshold c) (PGPKeys c)
    (Nonce c) (Backup c) (StoredShares c) (RekeyProgress c)
    (VerificationRequired c) s (VerificationNonce c) (VerificationProgress c)
    (Name c).

(** Slice operations on the [[]string] and [[]byte] stores. *)
Definition indexString (s : slice) (i : nat) : M string :=
  λ h, v ← index (h_str h) s i; Some (v, h).

Definition makeStrings (n : nat) : M slice :=
  λ h, let '(st, s) := make EmptyString (h_str h) n in
       Some (s, mkHeap (h_cfg h) st (h_byte h) (h_share h)).

Definition copyStrings (dst src : slice) : M nat :=
  λ h, let '(st, k) := copy (h_str h) dst src in
       Some (k, mkHeap (h_cfg h) st (h_byte h) (h_share h)).

Definition setString (s : slice) (i : nat) (v : string) : M unit :=
  λ h, st ← setIndex (h_str h) s i v;
       Some (tt, mkHeap (h_cfg h) st (h_byte h) (h_share h)).

Definition makeBytes (n : nat) : M slice :=
  λ h, let '(st, s) := make Byte.x00 (h_byte h) n in
       Some (s, mkHeap (h_cfg h) (h_str h) st (h_share h)).

Definition copyBytes (dst src : slice) : M nat :=
  λ h, let '(st, k) := copy (h_byte h) dst src in
       Some (k, mkHeap (h_cfg h) (h_str h) st (h_share h)).

Definition setByte (s : slice) (i : nat) (v : Byte.byte) : M unit :=
  λ h, st ← setIndex (h_byte h) s i v;
       Some (tt, mkHeap (h_cfg h) (h_str h) st (h_share h)).

(** The libraries [Validate] calls, as an interface: they are not part of
    the repository.  [DecodeString] is [base64.StdEncoding.DecodeString];
    [ReadEntity] is [openpgp.ReadEntity] on a packet reader over a buffer
    holding the given bytes. *)
Class OpenPGP : Type := {
  Entity : Type;
  DecodeString : string → result (list Byte.byte);
  ReadEntity : list Byte.byte → result Entity;
}.

Section methods.
Context `{OpenPGP}.

(** The body of [for _, keystring := range s.PGPKeys], from index [i] on,
    with [n] iterations left. *)
Fixpoint rangePGPKeys (keys : slice) (i n : nat) : M (option error) :=
  match n with
  | 0 => ret None
  | S n' =>
      keystring <- indexString keys i ;;
      match DecodeString keystring with
      | Err err => ret (Some (wrapError "error decoding given PGP key: " err))
      | Ok data =>
          match ReadEntity data with
          | Err err => ret (Some (wrapError "error parsing given PGP key: " err))
          | Ok _ => rangePGPKeys keys (S i) n'
          end
      end
  end.

(** [func (s *SealConfig) Validate() error]; [None] is the nil error. *)
Definition Validate (s : ptr) : M (option error) :=
  c <- load s ;;
  if (SecretShares c <? 1)%Z then
    ret (Some (errorString "shares must be at least one"))
  else if (SecretThreshold c <? 1)%Z then
    ret (Some (errorString "threshold must be at least one"))
  else if (1 <? SecretShares c)%Z && (SecretThreshold c =? 1)%Z then
    ret (Some (errorString "threshold must be greater than one for multiple shares"))
  else if (255 <? SecretShares c)%Z then
    ret (Some (errorString "shares must be less than 256"))
  else if (255 <? SecretThreshold c)%Z then
    ret (Some (errorString "threshold must be less than 256"))
  else if (SecretShares c <? SecretThreshold c)%Z then
    ret (Some (errorString "threshold cannot be larger than shares"))
  else if (1 <? StoredShares c)%Z then
    ret (Some (errorString "stored keys cannot be larger than 1"))
  else if (0 <? len (PGPKeys c))
          && negb (Z.of_nat (len (PGPKeys c)) =? SecretShares c)%Z then
    ret (Some (errorString
      "count mismatch between number of provided PGP keys and number of shares"))
  else if 0 <? len (PGPKeys c) then
    rangePGPKeys (PGPKeys c) 0 (len (PGPKeys c))
  else
    ret None.

End methods.

(** [func (s *SealConfig) Clone() *SealConfig]. *)
Definition Clone (s : ptr) : M ptr :=
  c <- load s ;;
  ret_ <- new (mkSealConfig (Type_ c) (SecretShares c) (SecretThreshold c)
                 nilSlice (Nonce c) (Backup c) (StoredShares c) nilSlice
                 (VerificationRequired c) nilSlice (VerificationNonce c)
                 nilSlice (Name c)) ;;
  (c <- load s ;;
   if 0 <? len (PGPKeys c) then
     keys <- makeStrings (len (PGPKeys c)) ;;
     assign ret_ (set_PGPKeys keys) ;;
     r <- load ret_ ;;
     copyStrings (PGPKeys r) (PGPKeys c) ;;
     ret tt
   else ret tt) ;;
  (c <- load s ;;
   if 0 <? len (VerificationKey c) then
     key <- makeBytes (len (VerificationKey c)) ;;
     assign ret_ (set_VerificationKey key) ;;
     r <- load ret_ ;;
     copyBytes (VerificationKey r) (VerificationKey c) ;;
     ret tt
   else ret tt) ;;
  ret ret_.

(** What a configuration holds once every slice is followed to its
    elements: the value two configurations share when they are
    deep-equal. *)
Record SealConfigValue : Type := mkValue {
  v_Type : string;
  v_SecretShares : Z;
  v_SecretThreshold : Z;
  v_PGPKeys : list string;
  v_Nonce : string;
  v_Backup : bool;
  v_StoredShares : Z;
  v_RekeyProgress : list (list Byte.byte);
  v_VerificationRequired : bool;
  v_VerificationKey : list Byte.byte;
  v_VerificationNonce : string;
  v_VerificationProgress : list (list Byte.byte);
  v_Name : string;
}.

Definition shares (h : heap) (s : slice) : list (list Byte.byte) :=
  contents (h_byte h) <$> contents (h_share h) s.

Definition value (h : heap) (c : SealConfig) : SealConfigValue :=
  mkValue (Type_ c) (SecretShares c) (SecretThreshold c)
    (contents (h_str h) (PGPKeys c)) (Nonce c) (Backup c) (StoredShares c)
    (shares h (RekeyProgress c)) (VerificationRequired c)
    (contents (h_byte h) (VerificationKey c)) (VerificationNonce c)
    (shares h (VerificationProgress c)) (Name c).

(** The value behind a pointer; [None] for a nil or dangling pointer. *)
Definition deref (h : heap) (p : ptr) : option SealConfigValue :=
  a ← p; c ← h_cfg h !! a; Some (value h c).

(** A configuration whose slices all point into allocated arrays, the
    submitted shares included. *)
Definition valid_cfg (h : heap) (c : SealConfig) : Prop :=
  valid (h_str h) (PGPKeys c) ∧
  valid (h_byte h) (VerificationKey c) ∧
  valid (h_share h) (RekeyProgress c) ∧
  valid (h_share h) (VerificationProgress c) ∧
  Forall (valid (h_byte h)) (contents (h_share h) (RekeyProgress c)) ∧
  Forall (valid (h_byte h)) (contents (h_share h) (VerificationProgress c)).

(** The ways a holder of a [*SealConfig] changes one of its
    variable-length fields: an element write through the slice, or the
    assignment of another slice to the field. *)
Inductive mutation : Type :=
| SetPGPKey (i : nat) (v : string)
| SetVerificationKeyByte (i : nat) (b : Byte.byte)
| AssignPGPKeys (s : slice)
| AssignVerificationKey (s : slice).

Definition mutate (p : ptr) (m : mutation) : M unit :=
  match m with
  | SetPGPKey i v => c <- load p ;; setString (PGPKeys c) i v
  | SetVerificationKeyByte i b => c <- load p ;; setByte (VerificationKey c) i b
  | AssignPGPKeys s => assign p (set_PGPKeys s)
  | AssignVerificationKey s => assign p (set_VerificationKey s)
  end.

(** The element writes among them, and a run of changes made one after
    the other through the same pointer. *)
Definition element_write (m : mutation) : Prop :=
  match m with
  | SetPGPKey _ _ | SetVerificationKeyByte _ _ => True
  | AssignPGPKeys _ | AssignVerificationKey _ => False
  end.

Fixpoint mutate_all (p : ptr) (ms : list mutation) : M unit :=
  match ms with
  | [] => ret tt
  | m :: ms' => mutate p m ;; mutate_all p ms'
  end.

(** [SealConfigType] is a string type; the wrapper type names come from
    the package go-kms-wrapping, which is not part of the repository. *)
Definition SealConfigType := string.

Class Wrapping : Type := {
  WrapperTypeShamir : string;
  WrapperTypePkcs11 : string;
  WrapperTypeAwsKms : string;
  WrapperTypeHsmAuto : string;
  WrapperTypeTransit : string;
  WrapperTypeGcpCkms : string;
}.

Section constants.
Context `{Wrapping}.

Definition SealConfigTypeMultiseal : SealConfigType := "multiseal".
Definition SealConfigTypeShamir : SealConfigType := WrapperTypeShamir.
Definition SealConfigTypePkcs11 : SealConfigType := WrapperTypePkcs11.
Definition SealConfigTypeAwsKms : SealConfigType := WrapperTypeAwsKms.
Definition SealConfigTypeHsmAutoDeprecated : SealConfigType := WrapperTypeHsmAuto.
Definition SealConfigTypeTransit : SealConfigType := WrapperTypeTransit.
Definition SealConfigTypeGcpCkms : SealConfigType := WrapperTypeGcpCkms.
Definition SealConfigTypeRecovery : SealConfigType := SealConfigTypeShamir.
Definition SealConfigTypeRecoveryUnsupported : SealConfigType := "unsupported".

End constants.

(** [func (s SealConfigType) String() string]. *)
Definition String_ (s : SealConfigType) : string := s.

(** [func (s SealConfigType) IsSameAs(t string) bool]. *)
Definition IsSameAs (s : SealConfigType) (t : string) : bool :=
  bool_decide (String_ s = t).

End vault.

(** ** Package [logical]: root_credential.go *)

Module logical.
Import golang.

(** Go's [int64] keeps the low 64 bits of a result, read as a signed
    number. *)
Definition int64 (z : Z) : Z :=
  ((z + 2 ^ 63) `mod` 2 ^ 64 - 2 ^ 63)%Z.

(** [time.Duration] is an [int64] count of nanoseconds. *)
Definition Duration := Z.
Definition Second : Duration := 1000000000%Z.

(** The conversion [time.Duration(n)] of an [int], and the product of two
    durations. *)
Definition toDuration (n : Z) : Duration := int64 n.
Definition mulDuration (a b : Duration) : Duration := int64 (a * b).

(** [time.Time]: the wall and monotonic readings and the location
    pointer; the zero value is [time.Time{}]. *)
Record Time : Type := mkTime {
  wall : Z;
  ext : Z;
  loc : option addr;
}.

Definition zeroTime : Time := mkTime 0 0 None.

(** The schedule parser [DefaultScheduler] and the type
    [cron.SpecSchedule] it produces are declared outside this file.
    [Parse] returns a pointer and an error, each of which may be nil. *)
Class Scheduler : Type := {
  SpecSchedule : Type;
  Parse : string → option SpecSchedule * option error;
}.

Section root_credential.
Context `{Scheduler}.

(** [RootSchedule] is declared in another file of the package; these are
    the fields the composite literal in [GetRootCredential] names, with
    the types of the values it gives them. *)
Record RootSchedule : Type := mkRootSchedule {
  Schedule_ : option SpecSchedule;
  RotationSchedule : string;
  RotationWindow : Duration;
  TTL : Duration;
  NextVaultRotation : Time;
  LastVaultRotation : Time;
}.

Record RotationOptions : Type := mkRotationOptions {
  Schedule : option RootSchedule;
}.

Record RootCredential : Type := mkRootCredential {
  RotationOptions_ : RotationOptions;
  RotationID : string;
  Path : string;
  Name : string;
}.

(** [func (s *RootCredential) Validate() error]: the receiver is not
    read, so a nil receiver is as good as any. *)
Definition Validate (s : option RootCredential) : option error :=
  None.

(** [func GetRootCredential(rotationSchedule, path, credentialName string,
    rotationWindow int, ttl int)], which returns a [*RootCredential] and an
    [error]. *)
Definition GetRootCredential
    (rotationSchedule path credentialName : string) (rotationWindow ttl : Z)
  : option RootCredential * option error :=
  let finish (cronSc : option SpecSchedule) :=
    let rs := mkRootSchedule cronSc rotationSchedule
                (mulDuration (toDuration rotationWindow) Second)
                (mulDuration (toDuration ttl) Second)
                zeroTime zeroTime in
    (Some (mkRootCredential (mkRotationOptions (Some rs)) "" path credentialName),
     None) in
  let cronSc : option SpecSchedule := None in
  if negb (String.eqb rotationSchedule "") then
    let '(cronSc, err) := Parse rotationSchedule in
    match err with
    | Some e => (None, Some e)
    | None => finish cronSc
    end
  else finish cronSc.

End root_credential.

End logical.

(** ** The script [.github/scripts/report-build-status.sh] *)

Module report_build_status.

(** The environment of the process: a variable that is not set has no
    entry. *)
Abbreviation env := (gmap string string).

(** ["$VAR"]: a variable that is not set expands to the empty string (the
    script does not run under [set -u]). *)
Definition expand (e : env) (var : string) : string :=
  default "" (e !! var).

(** How the script ends: the expansion [${VAR:?}] of a variable that is
    null or not set aborts the shell; or [source] of gh-comment.sh fails,
    which under [set -e] ends the script; or the script reaches its last
    command, the call of [update_or_create_comment] (a function of
    gh-comment.sh) with four arguments. *)
Inductive outcome : Type :=
| parameter_null_or_not_set (var : string)
| source_failed
| update_or_create_comment (repo pr_number search body : string).

(** The variables of the [[ "${VAR:?}" ]] lines, in their order. *)
Definition required : list string :=
  [ "GITHUB_TOKEN"; "RUN_ID"; "REPO"; "PR_NUMBER";
    "BUILD_UI"; "BUILD_ARTIFACTS"; "TEST"; "TEST_CONTAINERS" ].

(** The first of the lines that aborts. *)
Fixpoint first_null (e : env) (vars : list string) : option string :=
  match vars with
  | [] => None
  | var :: vars' =>
      if decide (expand e var = "") then Some var else first_null e vars'
  end.

(** [[[ "$s" == *"w"* ]]]: the word occurs somewhere in the string. *)
Fixpoint contains (w s : string) : bool :=
  String.prefix w s ||
  match s with
  | EmptyString => false
  | String _ s' => contains w s'
  end.

(** [jobs=( "ui:$BUILD_UI" "artifacts:$BUILD_ARTIFACTS" "test:$BUILD_TEST"
    "test-containers:$TEST_CONTAINERS" )]. *)
Definition jobs (e : env) : list string :=
  [ "ui:" +:+ expand e "BUILD_UI";
    "artifacts:" +:+ expand e "BUILD_ARTIFACTS";
    "test:" +:+ expand e "BUILD_TEST";
    "test-containers:" +:+ expand e "TEST_CONTAINERS" ].

(** The condition of the loop body. *)
Definition failed (job : string) : bool :=
  contains "failure" job || contains "cancelled" job.

(** The loop: [failed_jobs] collects, in order, the jobs that failed. *)
Definition failed_jobs (e : env) : list string :=
  filter (λ job, failed job = true) (jobs e).

(** The line feed inside the two message literals. *)
Definition LF : string := String "010"%char "".

(** [new_body]; ["${failed_jobs[*]}"] joins the elements with a space. *)
Definition new_body (e : env) : string :=
  if length (failed_jobs e) =? 0 then
    "Build Results:" +:+ LF +:+ "All builds succeeded! :white_check_mark:"
  else
    "Build Results:" +:+ LF +:+ "Build failed for these jobs: "
    +:+ String.concat " " (failed_jobs e)
    +:+ ". Please refer to this workflow to learn more: https://github.com/hashicorp/vault/actions/runs/"
    +:+ expand e "RUN_ID".

(** The script, from its first line to its last.  The file gh-comment.sh
    is not at hand: [sourced] says whether
    [source ./.github/scripts/gh-comment.sh] returns status 0, and a file
    that does is taken to define functions and leave the variables of the
    script alone. *)
Definition script (e : env) (sourced : bool) : outcome :=
  match first_null e required with
  | Some var => parameter_null_or_not_set var
  | None =>
      if sourced then
        update_or_create_comment (expand e "REPO") (expand e "PR_NUMBER")
          "Build Results:" (new_body e)
      else source_failed
  end.

End report_build_status.

(** ** The specification's reading of [Validate]

    These definitions follow the words of the specification, not the
    code: its error taxonomy, its ordered list of checks and its
    invariants of a valid configuration. *)

Module spec.
Import golang vault.

Inductive ValidationError : Type :=
| ShareCountError
| ThresholdCountError
| ThresholdTooLowError
| RangeError
| ThresholdExceedsSharesError
| StoredSharesError
| PgpKeyCountError
| PgpKeyParseError.

(** The taxonomy entry an error of the code falls under, by its text. *)
Definition classify (e : error) : option ValidationError :=
  match e with
  | errorString msg =>
      if decide (msg = "shares must be at least one") then Some ShareCountError
      else if decide (msg = "threshold must be at least one") then Some ThresholdCountError
      else if decide (msg = "threshold must be greater than one for multiple shares")
        then Some ThresholdTooLowError
      else if decide (msg = "shares must be less than 256") then Some RangeError
      else if decide (msg = "threshold must be less than 256") then Some RangeError
      else if decide (msg = "threshold cannot be larger than shares")
        then Some ThresholdExceedsSharesError
      else if decide (msg = "stored keys cannot be larger than 1") then Some StoredSharesError
      else if decide (msg =
        "count mismatch between number of provided PGP keys and number of shares")
        then Some PgpKeyCountError
      else None
  | wrapError prefix _ =>
      if decide (prefix = "error decoding given PGP key: ") then Some PgpKeyParseError
      else if decide (prefix = "error parsing given PGP key: ") then Some PgpKeyParseError
      else None
  end.

Section checks.
Context `{OpenPGP}.

(** An entry "decodes and parses as a valid public-key entity". *)
Definition parseable (k : string) : bool :=
  match DecodeString k with
  | Ok data => match ReadEntity data with Ok _ => true | Err _ => false end
  | Err _ => false
  end.

(** Checks 1 to 7 of the specification, each with the condition under
    which it is violated and the error it then gives. *)
Definition checks (v : SealConfigValue) : list (bool * ValidationError) :=
  let shares := v_SecretShares v in
  let threshold := v_SecretThreshold v in
  let keys := v_PGPKeys v in
  let nonempty := negb (bool_decide (keys = [])) in
  [ (negb (1 <=? shares)%Z, ShareCountError);
    (negb (1 <=? threshold)%Z, ThresholdCountError);
    ((1 <? shares)%Z && (threshold =? 1)%Z, ThresholdTooLowError);
    (negb ((shares <=? 255)%Z && (threshold <=? 255)%Z), RangeError);
    (negb (threshold <=? shares)%Z, ThresholdExceedsSharesError);
    (negb (v_StoredShares v <=? 1)%Z, StoredSharesError);
    (nonempty && negb (Z.of_nat (length keys) =? shares)%Z, PgpKeyCountError);
    (nonempty && negb (forallb parseable keys), PgpKeyParseError) ].

(** "First failure wins". *)
Fixpoint first_failure (cs : list (bool * ValidationError))
  : option ValidationError :=
  match cs with
  | [] => None
  | (violated, e) :: cs' => if violated then Some e else first_failure cs'
  end.

Definition validate (v : SealConfigValue) : option ValidationError :=
  first_failure (checks v).

(** The invariants "always true of a valid configuration". *)
Definition invariants (v : SealConfigValue) : Prop :=
  (1 ≤ v_SecretThreshold v ∧ v_SecretThreshold v ≤ v_SecretShares v
   ∧ v_SecretShares v ≤ 255)%Z ∧
  (v_SecretShares v = 1 ∨ 1 < v_SecretThreshold v)%Z ∧
  (v_StoredShares v = 0 ∨ v_StoredShares v = 1)%Z ∧
  (v_PGPKeys v = [] ∨
   (Z.of_nat (length (v_PGPKeys v)) = v_SecretShares v ∧
    Forall (λ k, parseable k = true) (v_PGPKeys v))).

End checks.

End spec.

(** ** Concrete inputs

    Stand-ins for the external libraries, to run the code on concrete
    configurations, and the heaps used as examples below.  The stand-ins
    are not the libraries (the decoder accepts strings that base64
    rejects): they show that the hypotheses of a theorem can be met, and
    every theorem is stated for any library. *)

Module samples.
Import golang vault logical.

(** A decoder that rejects a string starting with ['!'] (which is outside
    the base64 alphabet) at byte 0 and otherwise hands the bytes on, and a
    reader that needs at least one byte. *)
Definition sampleDecodeString (s : string) : result (list Byte.byte) :=
  match s with
  | String "!"%char _ => Err (errorString "illegal base64 data at input byte 0")
  | _ => Ok (String.list_byte_of_string s)
  end.

Definition sampleReadEntity (data : list Byte.byte) : result unit :=
  match data with
  | [] => Err (errorString "EOF")
  | _ :: _ => Ok tt
  end.

Definition sampleOpenPGP : OpenPGP :=
  Build_OpenPGP unit sampleDecodeString sampleReadEntity.

(** The names go-kms-wrapping v2 gives its wrapper types. *)
Definition sampleWrapping : Wrapping :=
  Build_Wrapping "shamir" "pkcs11" "awskms" "hsm-auto" "transit" "gcpckms".

(** A parser that accepts exactly the schedules made of five fields
    separated by single spaces, and keeps the fields. *)
Fixpoint fields (cur : string) (s : string) : list string :=
  match s with
  | EmptyString => [cur]
  | String c s' =>
      if Ascii.eqb c " "%char then cur :: fields "" s'
      else fields (cur +:+ String c "") s'
  end.

Definition sampleParse (s : string) : option (list string) * option error :=
  let fs := fields "" s in
  if (length fs =? 5) && forallb (λ f, negb (String.eqb f "")) fs
  then (Some fs, None)
  else (None, Some (errorString "expected exactly 5 fields"))%string.

Definition sampleScheduler : Scheduler :=
  Build_Scheduler (list string) sampleParse.

(** Five shares, threshold three, two shares of a rekey already submitted
    and a verification key. *)
Definition config1 : SealConfig :=
  mkSealConfig "shamir" 5 3 nilSlice "nonce-1" false 0
    (mkSlice 0 0 2 4) true (mkSlice 2 0 2 2) "vnonce-1" nilSlice "seal".

Definition heap1 : heap :=
  mkHeap [config1] []
    [ [Byte.x01; Byte.x02]; [Byte.x03]; [Byte.xaa; Byte.xbb] ]
    [ [mkSlice 0 0 2 2; mkSlice 1 0 1 1; nilSlice; nilSlice] ].

(** Two shares and two PGP keys; the verification key is a window into a
    longer array. *)
Definition config2 : SealConfig :=
  mkSealConfig "shamir" 2 2 (mkSlice 0 0 2 2) "" false 1
    nilSlice false (mkSlice 0 1 2 3) "" nilSlice "seal".

Definition heap2 (k0 k1 : string) : heap :=
  mkHeap [config2] [ [k0; k1] ]
    [ [Byte.x00; Byte.x10; Byte.x20; Byte.x30] ] [].

(** A configuration without keys whose counts are given. *)
Definition config3 (shares threshold stored : Z) : SealConfig :=
  mkSealConfig "shamir" shares threshold nilSlice "" false stored
    nilSlice false nilSlice "" nilSlice "".

Definition heap3 (shares threshold stored : Z) : heap :=
  mkHeap [config3 shares threshold stored] [] [] [].



End samples.


(** ** Closed forms

    What the methods compute, written without the heap monad; the lemmas
    below relate the methods to them. *)

Module closed_forms.
Import golang vault.

Section validate.
Context `{OpenPGP}.

(** The error the loop body gives for one key, if any. *)
Definition keyError (k : string) : option error :=
  match DecodeString k with
  | Err err => Some (wrapError "error decoding given PGP key: " err)
  | Ok data =>
      match ReadEntity data with
      | Err err => Some (wrapError "error parsing given PGP key: " err)
      | Ok _ => None
      end
  end.

Fixpoint firstKeyError (keys : list string) : option error :=
  match keys with
  | [] => None
  | k :: keys' =>
      match keyError k with
      | Some e => Some e
      | None => firstKeyError keys'
      end
  end.

(** The outcome of [Validate] read off the fields and the key list. *)
Definition outcome (v : SealConfigValue) : option error :=
  if (v_SecretShares v <? 1)%Z then
    Some (errorString "shares must be at least one")
  else if (v_SecretThreshold v <? 1)%Z then
    Some (errorString "threshold must be at least one")
  else if (1 <? v_SecretShares v)%Z && (v_SecretThreshold v =? 1)%Z then
    Some (errorString "threshold must be greater than one for multiple shares")
  else if (255 <? v_SecretShares v)%Z then
    Some (errorString "shares must be less than 256")
  else if (255 <? v_SecretThreshold v)%Z then
    Some (errorString "threshold must be less than 256")
  else if (v_SecretShares v <? v_SecretThreshold v)%Z then
    Some (errorString "threshold cannot be larger than shares")
  else if (1 <? v_StoredShares v)%Z then
    Some (errorString "stored keys cannot be larger than 1")
  else if (0 <? length (v_PGPKeys v))
          && negb (Z.of_nat (length (v_PGPKeys v)) =? v_SecretShares v)%Z then
    Some (errorString
      "count mismatch between number of provided PGP keys and number of shares")
  else firstKeyError (v_PGPKeys v).

End validate.

(** The value of a configuration with no share submitted. *)
Definition without_progress (v : SealConfigValue) : SealConfigValue :=
  mkValue (v_Type v) (v_SecretShares v) (v_SecretThreshold v) (v_PGPKeys v)
    (v_Nonce v) (v_Backup v) (v_StoredShares v) [] (v_VerificationRequired v)
    (v_VerificationKey v) (v_VerificationNonce v) [] (v_Name v).

(** The slice [Clone] gives a field, and the array it allocates for it
    (none for an empty slice), written out. *)
Definition cloned_slice {A} (st : store A) (s : slice) : slice :=
  if 0 <? len s then mkSlice (length st) 0 (len s) (len s) else nilSlice.

Definition cloned_arrays {A} (st : store A) (s : slice) : store A :=
  if 0 <? len s then [contents st s] else [].

Definition cloned_cfg (h : heap) (c : SealConfig) : SealConfig :=
  mkSealConfig (Type_ c) (SecretShares c) (SecretThreshold c)
    (cloned_slice (h_str h) (PGPKeys c)) (Nonce c) (Backup c)
    (StoredShares c) nilSlice (VerificationRequired c)
    (cloned_slice (h_byte h) (VerificationKey c)) (VerificationNonce c)
    nilSlice (Name c).

Definition cloned_heap (h : heap) (c : SealConfig) : heap :=
  mkHeap (h_cfg h ++ [cloned_cfg h c])
    (h_str h ++ cloned_arrays (h_str h) (PGPKeys c))
    (h_byte h ++ cloned_arrays (h_byte h) (VerificationKey c))
    (h_share h).

(** Stores that agree on every address allocated in the first. *)
Definition agree {A} (st st' : store A) : Prop :=
  ∀ a, a < length st → st' !! a = st !! a.

(** Both structs are where the call left them. *)
Definition structs_kept (h : heap) (a : addr) (c : SealConfig) (h2 : heap)
  : Prop :=
  h_cfg h2 !! a = Some c ∧
  h_cfg h2 !! length (h_cfg h) = Some (cloned_cfg h c) ∧
  h_share h2 = h_share h.

(** The arrays allocated before the call are as they were. *)
Definition original_intact (h h2 : heap) : Prop :=
  agree (h_str h) (h_str h2) ∧ agree (h_byte h) (h_byte h2).

(** The arrays allocated by the call are as the call left them. *)
Definition clone_intact (h : heap) (c : SealConfig) (h2 : heap) : Prop :=
  h_str h2 !! length (h_str h)
    = h_str (cloned_heap h c) !! length (h_str h) ∧
  h_byte h2 !! length (h_byte h)
    = h_byte (cloned_heap h c) !! length (h_byte h).

End closed_forms.

(** ** Facts about slices and stores *)

Module slice_facts.
Import golang.

Section slices.
Context {A : Type}.
Implicit Types (st : store A) (s : slice) (arr : list A).

Lemma valid_allocated st s a :
  valid st s → array_of s = Some a → a < length st.
Proof.
  destruct s as [|a' off n cap]; simpl; [discriminate|].
  intros Hv [= ->]. destruct (st !! a) eqn:E; [|done].
  by eapply lookup_lt_Some.
Qed.

Lemma length_contents st s : valid st s → length (contents st s) = len s.
Proof.
  destruct s as [|a off n cap]; simpl; [done|].
  destruct (st !! a) as [arr|]; [|done]. simpl. intros [Hn Hc].
  rewrite length_take, length_drop. lia.
Qed.

Lemma index_contents st s i :
  valid st s → index st s i = contents st s !! i.
Proof.
  destruct s as [|a off n cap]; simpl; [done|].
  destruct (st !! a) as [arr|]; [|done]. simpl. intros [Hn Hc].
  destruct (decide (i < n)).
  - by rewrite lookup_take_lt, lookup_drop.
  - rewrite lookup_take_ge; [done|lia].
Qed.

Lemma valid_app st ext s : valid st s → valid (st ++ ext) s.
Proof.
  destruct s as [|a off n cap]; simpl; [done|].
  destruct (st !! a) as [arr|] eqn:E; [|done].
  by rewrite (lookup_app_l_Some _ _ _ _ E).
Qed.

Lemma contents_app st ext s :
  valid st s → contents (st ++ ext) s = contents st s.
Proof.
  destruct s as [|a off n cap]; simpl; [done|].
  destruct (st !! a) as [arr|] eqn:E; [|done].
  by rewrite (lookup_app_l_Some _ _ _ _ E).
Qed.

(** What [make] allocates. *)
Lemma contents_fresh st arr :
  contents (st ++ [arr]) (mkSlice (length st) 0 (length arr) (length arr)) = arr.
Proof.
  unfold contents. rewrite list_lookup_middle by done. simpl.
  by rewrite drop_0, firstn_all.
Qed.

Lemma alter_fresh {B} (f : B → B) (l : list B) (x : B) :
  alter f (length l) (l ++ [x]) = l ++ [f x].
Proof.
  apply list_eq. intros i. destruct (decide (i = length l)) as [->|Hne].
  - rewrite list_lookup_alter_eq, !list_lookup_middle by done. done.
  - rewrite list_lookup_alter_ne by done.
    destruct (decide (i < length l)).
    + by rewrite !lookup_app_l by done.
    + rewrite !lookup_ge_None_2; [done| |]; rewrite length_app; simpl; lia.
Qed.

(** [make] followed by [copy] from a slice of the same length leaves a
    new array holding the elements of the source. *)
Lemma copy_into_fresh zero st src :
  valid st src →
  copy (st ++ [replicate (len src) zero])
       (mkSlice (length st) 0 (len src) (len src)) src
  = (st ++ [contents st src], len src).
Proof.
  intros Hv. unfold copy. simpl len. rewrite Nat.min_id.
  rewrite contents_app by done.
  rewrite alter_fresh. f_equal. f_equal. f_equal.
  rewrite firstn_all2 by (rewrite length_contents; done).
  rewrite <- (app_nil_r (replicate _ _)).
  rewrite list_inserts_0_r; [apply app_nil_r|].
  by rewrite length_contents, length_replicate.
Qed.

(** An element write changes one array and no address. *)
Lemma setIndex_spec st s i v st' :
  setIndex st s i v = Some st' →
  ∃ a, array_of s = Some a ∧ a < length st ∧ length st' = length st ∧
       ∀ a', a' ≠ a → st' !! a' = st !! a'.
Proof.
  destruct s as [|a off n cap]; simpl; [discriminate|].
  destruct (decide (i < n)); [|discriminate].
  destruct (st !! a) as [arr|] eqn:E; simpl; [|discriminate].
  destruct (decide (off + i < length arr)); [|discriminate].
  intros [= <-]. exists a. split_and!; [done| |by rewrite length_insert|].
  - by eapply lookup_lt_Some.
  - intros a' Hne. by rewrite list_lookup_insert_ne.
Qed.

Lemma contents_other st st' s a :
  (∀ a', a' ≠ a → st' !! a' = st !! a') →
  array_of s ≠ Some a →
  contents st' s = contents st s.
Proof.
  intros Hst Hs. destruct s as [|a0 off n cap]; simpl; [done|].
  rewrite Hst; [done|]. simpl in Hs. congruence.
Qed.

Lemma contents_write st s i v st' :
  valid st s → setIndex st s i v = Some st' →
  contents st' s = <[i := v]> (contents st s).
Proof.
  destruct s as [|a off n cap]; simpl; [discriminate|].
  destruct (decide (i < n)); [|discriminate].
  destruct (st !! a) as [arr|] eqn:E; simpl; [|done].
  destruct (decide (off + i < length arr)); [|discriminate].
  intros [Hn Hc] [= <-].
  rewrite list_lookup_insert_eq by by eapply lookup_lt_Some. simpl.
  apply list_eq. intros j.
  destruct (decide (j < n)).
  - rewrite lookup_take_lt, lookup_drop by done.
    destruct (decide (j = i)) as [->|Hne].
    + rewrite !list_lookup_insert_eq; [done| |done].
      rewrite length_take, length_drop. lia.
    + rewrite !list_lookup_insert_ne by lia.
      by rewrite lookup_take_lt, lookup_drop.
  - rewrite lookup_take_ge by lia.
    rewrite list_lookup_insert_ne by lia.
    rewrite lookup_take_ge; [done|lia].
Qed.

End slices.

End slice_facts.

(** ** [Validate] as a function of the configuration's value *)

Module validate_facts.
Import golang vault closed_forms slice_facts.

Section validate.
Context `{OpenPGP}.

Lemma rangePGPKeys_run h s n : ∀ i,
  valid (h_str h) s → i + n = len s →
  rangePGPKeys s i n h = Some (firstKeyError (drop i (contents (h_str h) s)), h).
Proof.
  induction n as [|n IH]; intros i Hv Hin; simpl.
  - rewrite drop_ge by (rewrite length_contents by done; lia). done.
  - unfold bind, indexString. rewrite index_contents by done.
    destruct (lookup_lt_is_Some_2 (contents (h_str h) s) i) as [k Hk].
    { rewrite length_contents by done. lia. }
    rewrite Hk. simpl. rewrite (drop_S _ _ _ Hk). simpl. unfold keyError.
    destruct (DecodeString k) as [data|err]; [|done].
    destruct (ReadEntity data) as [ent|err]; [|done].
    apply IH; [done|lia].
Qed.

Lemma rangePGPKeys_frame s n : ∀ i h r h',
  rangePGPKeys s i n h = Some (r, h') → h' = h.
Proof.
  induction n as [|n IH]; intros i h r h'; simpl.
  - by intros [= _ <-].
  - unfold bind, indexString.
    destruct (index (h_str h) s i) as [k|]; simpl; [|discriminate].
    destruct (DecodeString k) as [data|err]; [|by intros [= _ <-]].
    destruct (ReadEntity data) as [ent|err]; [|by intros [= _ <-]].
    apply IH.
Qed.

(** On an allocated configuration whose key slice is in bounds,
    [Validate] returns, leaves the heap alone, and its result is
    [outcome]. *)
Lemma Validate_run h a c :
  h_cfg h !! a = Some c → valid (h_str h) (PGPKeys c) →
  Validate (Some a) h = Some (outcome (value h c), h).
Proof.
  intros Hc Hv. unfold Validate, bind, load, outcome. rewrite Hc. simpl.
  rewrite length_contents by done.
  repeat (case_match; [done|]).
  destruct (Nat.ltb_spec 0 (len (PGPKeys c))) as [Hlt|Hge].
  - rewrite rangePGPKeys_run with (i := 0); [by rewrite drop_0|done|done].
  - destruct (contents (h_str h) (PGPKeys c)) eqn:E; [done|].
    apply (f_equal length) in E. rewrite length_contents in E by done.
    simpl in E. lia.
Qed.

Lemma Validate_frame s h r h' :
  Validate s h = Some (r, h') → h' = h.
Proof.
  unfold Validate, bind, load. destruct s as [a|]; [|discriminate].
  destruct (h_cfg h !! a) as [c|]; simpl; [|discriminate].
  repeat (case_match; [by intros [= _ <-]|]).
  case_match; [apply rangePGPKeys_frame|by intros [= _ <-]].
Qed.

Lemma firstKeyError_None keys :
  firstKeyError keys = None ↔ Forall (λ k, keyError k = None) keys.
Proof.
  induction keys as [|k keys IH]; simpl.
  - split; [constructor|done].
  - destruct (keyError k) eqn:E.
    + split; [done|]. intros HF. apply Forall_cons in HF as [? _]. congruence.
    + rewrite IH. split; [by constructor|]. by intros [_ ?]%Forall_cons.
Qed.


Lemma keyError_parseable k :
  keyError k = None ↔ spec.parseable k = true.
Proof.
  unfold keyError, spec.parseable.
  destruct (DecodeString k) as [data|]; [|done].
  by destruct (ReadEntity data).
Qed.

Lemma keyError_classify k e :
  keyError k = Some e → spec.classify e = Some spec.PgpKeyParseError.
Proof.
  unfold keyError.
  destruct (DecodeString k) as [data|]; [|by intros [= <-]].
  destruct (ReadEntity data); [done|by intros [= <-]].
Qed.

Lemma firstKeyError_classify keys e :
  firstKeyError keys = Some e → spec.classify e = Some spec.PgpKeyParseError.
Proof.
  induction keys as [|k keys IH]; simpl; [done|].
  destruct (keyError k) eqn:E; [|done].
  intros [= <-]. by eapply keyError_classify.
Qed.

Lemma firstKeyError_forallb keys :
  firstKeyError keys = None ↔ forallb spec.parseable keys = true.
Proof.
  rewrite firstKeyError_None, forallb_forall, Forall_forall.
  split; intros HF k Hk.
  - apply keyError_parseable, HF. by apply list_elem_of_In.
  - apply keyError_parseable, HF. by apply list_elem_of_In.
Qed.

(** [outcome] against the ordered checks of the specification. *)
Lemma outcome_classify v :
  spec.classify <$> outcome v = Some <$> spec.validate v.
Proof.
  unfold outcome, spec.validate, spec.checks. cbn [spec.first_failure].
  rewrite negb_andb, <- !Z.ltb_antisym.
  destruct (v_SecretShares v <? 1)%Z; [reflexivity|].
  destruct (v_SecretThreshold v <? 1)%Z; [reflexivity|].
  destruct ((1 <? v_SecretShares v)%Z && (v_SecretThreshold v =? 1)%Z);
    [reflexivity|].
  destruct (255 <? v_SecretShares v)%Z; [reflexivity|].
  destruct (255 <? v_SecretThreshold v)%Z; [reflexivity|].
  destruct (v_SecretShares v <? v_SecretThreshold v)%Z; [reflexivity|].
  destruct (1 <? v_StoredShares v)%Z; [reflexivity|].
  cbn [orb].
  destruct (v_PGPKeys v) as [|k keys]; [reflexivity|].
  rewrite bool_decide_eq_false_2 by done.
  cbn [length Nat.ltb Nat.leb negb andb].
  destruct (negb _); [reflexivity|].
  destruct (firstKeyError (k :: keys)) as [e|] eqn:Hk.
  - change (spec.classify <$> Some e) with (Some (spec.classify e)).
    rewrite (firstKeyError_classify _ _ Hk).
    destruct (forallb spec.parseable (k :: keys)) eqn:Hf; [|reflexivity].
    apply firstKeyError_forallb in Hf. congruence.
  - apply firstKeyError_forallb in Hk. rewrite Hk. reflexivity.
Qed.

Local Ltac reject :=
  split; [discriminate | intros (? & ? & ? & _); lia].

(** When [Validate] accepts: the bound on the stored shares is from
    above only. *)
Lemma outcome_None v :
  outcome v = None ↔
  (1 ≤ v_SecretThreshold v ∧ v_SecretThreshold v ≤ v_SecretShares v
   ∧ v_SecretShares v ≤ 255)%Z ∧
  (v_SecretShares v = 1 ∨ 1 < v_SecretThreshold v)%Z ∧
  (v_StoredShares v ≤ 1)%Z ∧
  (v_PGPKeys v = [] ∨
   (Z.of_nat (length (v_PGPKeys v)) = v_SecretShares v ∧
    Forall (λ k, spec.parseable k = true) (v_PGPKeys v))).
Proof.
  unfold outcome.
  destruct (Z.ltb_spec (v_SecretShares v) 1); [reject|].
  destruct (Z.ltb_spec (v_SecretThreshold v) 1); [reject|].
  destruct (Z.ltb_spec 1 (v_SecretShares v));
    destruct (Z.eqb_spec (v_SecretThreshold v) 1); cbn [andb]; [reject| | |].
  all: destruct (Z.ltb_spec 255 (v_SecretShares v)); [reject|].
  all: destruct (Z.ltb_spec 255 (v_SecretThreshold v)); [reject|].
  all: destruct (Z.ltb_spec (v_SecretShares v) (v_SecretThreshold v)); [reject|].
  all: destruct (Z.ltb_spec 1 (v_StoredShares v)); [reject|].
  all: destruct (v_PGPKeys v) as [|k keys] eqn:E;
    [split; [intros _; split_and!; try lia; by left|done]|].
  all: cbn [length Nat.ltb Nat.leb andb].
  all: destruct (Z.eqb_spec (Z.of_nat (S (length keys))) (v_SecretShares v))
    as [Hn|Hn]; cbn [negb].
  all: try (split; [discriminate|];
            intros (_ & _ & _ & [?|[? _]]); [discriminate|done]).
  all: rewrite firstKeyError_None; split.
  all: try (intros HF; split; [lia|]; split; [lia|]; split; [lia|];
            right; split; [exact Hn|];
            eapply Forall_impl; [exact HF|]; intros ?; apply keyError_parseable).
  all: intros (_ & _ & _ & [?|[_ HF]]); [discriminate|].
  all: eapply Forall_impl; [exact HF|]; intros ?; apply keyError_parseable.
Qed.
(** When [Validate] returns nil, on the heap. *)
Lemma Validate_nil_iff h a c :
  h_cfg h !! a = Some c → valid (h_str h) (PGPKeys c) →
  Validate (Some a) h = Some (None, h) ↔
  (1 ≤ SecretThreshold c ∧ SecretThreshold c ≤ SecretShares c
   ∧ SecretShares c ≤ 255)%Z ∧
  (SecretShares c = 1 ∨ 1 < SecretThreshold c)%Z ∧
  (StoredShares c ≤ 1)%Z ∧
  (contents (h_str h) (PGPKeys c) = [] ∨
   (Z.of_nat (length (contents (h_str h) (PGPKeys c))) = SecretShares c ∧
    Forall (λ k, spec.parseable k = true) (contents (h_str h) (PGPKeys c)))).
Proof.
  intros Hc Hv. rewrite (Validate_run h a c Hc Hv).
  rewrite <- (outcome_None (value h c)). split; [by intros [= ->]|by intros ->].
Qed.

End validate.

Section validate_claims.
Context `{OpenPGP}.

(** C5: [Validate] performs the checks of the specification in their
    order (share count, threshold count, threshold too low, range,
    threshold above shares, stored shares, key count, key parse): on an
    allocated configuration it returns, and the error it returns is the
    one of the earliest check of [spec.checks] that the configuration
    violates; it returns nil exactly when none is violated. *)
Theorem Validate_first_failure_wins h a c :
  h_cfg h !! a = Some c → valid (h_str h) (PGPKeys c) →
  ∃ r, Validate (Some a) h = Some (r, h) ∧
       spec.classify <$> r = Some <$> spec.validate (value h c).
Proof.
  intros Hc Hv. exists (outcome (value h c)). split.
  - by apply Validate_run.
  - apply outcome_classify.
Qed.


(** C7: [Validate] changes nothing.  Whatever it returns, the heap after
    the call is the heap before it, so every field of the configuration
    and every array behind its slices is as it was; and on an allocated
    configuration it does return. *)
Theorem Validate_pure s h :
  (∀ r h', Validate s h = Some (r, h') → h' = h ∧ deref h' s = deref h s) ∧
  (∀ a c, s = Some a → h_cfg h !! a = Some c → valid (h_str h) (PGPKeys c) →
     ∃ r, Validate s h = Some (r, h)).
Proof.
  split.
  - intros r h' Hrun. apply Validate_frame in Hrun as ->. done.
  - intros a c -> Hc Hv. eexists. by apply Validate_run.
Qed.

End validate_claims.

Import samples.

Lemma Validate_first_failure_wins_witness :
  ∃ r, @Validate sampleOpenPGP (Some 0) (heap3 0 0 5) = Some (r, heap3 0 0 5) ∧
       spec.classify <$> r = Some (Some spec.ShareCountError).
Proof.
  exact (@Validate_first_failure_wins sampleOpenPGP (heap3 0 0 5) 0
           (config3 0 0 5) eq_refl I).
Defined.


Lemma Validate_pure_witness :
  ∃ r, @Validate sampleOpenPGP (Some 0) heap1 = Some (r, heap1).
Proof.
  exact (proj2 (@Validate_pure sampleOpenPGP (Some 0) heap1) 0 config1
           eq_refl eq_refl I).
Defined.


(** C1: the configuration with one share, threshold one and -1 stored
    shares is accepted by [Validate], although it breaks the invariant
    that the stored shares are 0 or 1. *)
Theorem Validate_accepts_outside_invariants (pgp : OpenPGP) :
  Validate (Some 0) (heap3 1 1 (-1)) = Some (None, heap3 1 1 (-1)) ∧
  ¬ spec.invariants (value (heap3 1 1 (-1)) (config3 1 1 (-1))).
Proof.
  split; [reflexivity|].
  intros (_ & _ & Hs & _). simpl in Hs. lia.
Qed.

(** C2: [Validate] raises no error on negative stored shares.  A
    configuration without keys whose share count and threshold are in
    order is accepted with any negative number of stored shares, which is
    neither 0 nor 1. *)
Theorem Validate_negative_stored_shares (pgp : OpenPGP)
    (shares threshold stored : Z) :
  (1 ≤ threshold ∧ threshold ≤ shares ∧ shares ≤ 255)%Z →
  (shares = 1 ∨ 1 < threshold)%Z →
  (stored < 0)%Z →
  Validate (Some 0) (heap3 shares threshold stored)
  = Some (None, heap3 shares threshold stored).
Proof.
  intros Hrange Hlow Hneg.
  apply (Validate_nil_iff _ 0 (config3 shares threshold stored));
    [reflexivity|exact I|].
  cbn [config3 SecretShares SecretThreshold StoredShares PGPKeys contents].
  split_and!; [lia|lia|lia|exact Hlow|lia|by left].
Qed.

Lemma Validate_negative_stored_shares_witness :
  @Validate sampleOpenPGP (Some 0) (heap3 5 3 (-7))
  = Some (None, heap3 5 3 (-7)).
Proof.
  apply (Validate_negative_stored_shares sampleOpenPGP 5 3 (-7)); lia.
Defined.

End validate_facts.

(** ** [Clone] *)

Module clone_facts.
Import golang vault closed_forms slice_facts samples.

Lemma bind_run {A B} (m : M A) (k : A → M B) h x h' :
  m h = Some (x, h') → bind m k h = k x h'.
Proof. unfold bind. by intros ->. Qed.

Lemma load_run h a c : h_cfg h !! a = Some c → load (Some a) h = Some (c, h).
Proof. unfold load. by intros ->. Qed.

Lemma assign_run h a c f :
  h_cfg h !! a = Some c →
  assign (Some a) f h
  = Some (tt, mkHeap (alter f a (h_cfg h)) (h_str h) (h_byte h) (h_share h)).
Proof. unfold assign. by intros ->. Qed.

Ltac run_with lem := erewrite bind_run; [|lem]; cbn beta.

Ltac run_load :=
  run_with ltac:(apply load_run; cbn [h_cfg]; rewrite ?alter_fresh;
                 first [eassumption | by apply lookup_app_l_Some
                       | by apply list_lookup_middle]).

Ltac run_assign :=
  run_with ltac:(eapply assign_run; cbn [h_cfg];
                 first [eassumption | by apply list_lookup_middle]).

Ltac run_copy unfolder zero :=
  erewrite bind_run;
  [|unfold unfolder;
    cbn [h_str h_cfg h_byte h_share set_PGPKeys set_VerificationKey PGPKeys
         VerificationKey];
    rewrite (copy_into_fresh zero) by done; reflexivity];
  cbn beta.

(** One [if len(s.F) > 0 { ret.F = make(...); copy(ret.F, s.F) }] block,
    when the field is not empty and when it is. *)
Ltac run_block_copy E unfolder zero :=
  erewrite (bind_run (bind _ _));
  [|run_load; rewrite E; run_with ltac:(reflexivity); run_assign; run_load;
    run_copy unfolder zero; reflexivity];
  cbn beta; rewrite ?alter_fresh;
  cbn [h_str h_cfg h_byte h_share set_PGPKeys set_VerificationKey Type_
       SecretShares SecretThreshold PGPKeys Nonce Backup StoredShares
       RekeyProgress VerificationRequired VerificationKey VerificationNonce
       VerificationProgress Name].

Ltac run_block_skip E :=
  erewrite (bind_run (bind _ _));
  [|run_load; rewrite E; reflexivity];
  cbn beta.

Lemma Clone_run h a c :
  h_cfg h !! a = Some c →
  valid (h_str h) (PGPKeys c) → valid (h_byte h) (VerificationKey c) →
  Clone (Some a) h = Some (Some (length (h_cfg h)), cloned_heap h c).
Proof.
  intros Hc Hk Hv. unfold Clone, cloned_heap, cloned_cfg, cloned_slice,
    cloned_arrays.
  run_load. run_with ltac:(reflexivity).
  destruct (0 <? len (PGPKeys c)) eqn:E1;
    destruct (0 <? len (VerificationKey c)) eqn:E2.
  - run_block_copy E1 copyStrings EmptyString.
    run_block_copy E2 copyBytes Byte.x00. reflexivity.
  - run_block_copy E1 copyStrings EmptyString.
    run_block_skip E2. by rewrite app_nil_r.
  - run_block_skip E1.
    run_block_copy E2 copyBytes Byte.x00. by rewrite app_nil_r.
  - run_block_skip E1. run_block_skip E2. by rewrite !app_nil_r.
Qed.

Lemma agree_app {A} (st ext : store A) : agree st (st ++ ext).
Proof. intros a Ha. by apply lookup_app_l. Qed.

Lemma agree_refl {A} (st : store A) : agree st st.
Proof. by intros a Ha. Qed.

Lemma contents_agree {A} (st st' : store A) s :
  valid st s → agree st st' → contents st' s = contents st s.
Proof.
  intros Hv Hag. destruct s as [|a off n cap]; [done|].
  unfold contents. rewrite Hag; [done|].
  by apply (valid_allocated st (mkSlice a off n cap)).
Qed.

Lemma shares_agree h h' s :
  Forall (valid (h_byte h)) (contents (h_share h) s) →
  agree (h_byte h) (h_byte h') → h_share h' = h_share h →
  shares h' s = shares h s.
Proof.
  intros HF Hag Hsh. unfold shares. rewrite Hsh.
  induction HF as [|x l Hx _ IH]; [done|].
  cbn [fmap list_fmap]. f_equal; [by apply contents_agree|exact IH].
Qed.

(** The value of a valid configuration depends only on the arrays
    allocated so far. *)
Lemma value_agree h h' c :
  valid_cfg h c →
  agree (h_str h) (h_str h') → agree (h_byte h) (h_byte h') →
  h_share h' = h_share h →
  value h' c = value h c.
Proof.
  intros (Hk & Hv & _ & _ & Hr & Hp) Hs Hb Hsh. unfold value.
  rewrite (contents_agree _ _ _ Hk Hs), (contents_agree _ _ _ Hv Hb).
  by rewrite (shares_agree h h' _ Hr Hb Hsh), (shares_agree h h' _ Hp Hb Hsh).
Qed.

Lemma contents_cloned {A} (st : store A) s :
  valid st s →
  contents (st ++ cloned_arrays st s) (cloned_slice st s) = contents st s.
Proof.
  intros Hv. unfold cloned_arrays, cloned_slice.
  destruct (Nat.ltb_spec 0 (len s)) as [Hlt|Hge].
  - rewrite <- (length_contents st s Hv). apply contents_fresh.
  - destruct (contents st s) eqn:E; [done|].
    apply (f_equal length) in E. rewrite length_contents in E by done.
    simpl in E. lia.
Qed.

Lemma value_cloned h c :
  valid_cfg h c →
  value (cloned_heap h c) (cloned_cfg h c) = without_progress (value h c).
Proof.
  intros (Hk & Hv & _). unfold value, without_progress, cloned_heap, cloned_cfg.
  cbn [h_str h_byte h_share PGPKeys VerificationKey RekeyProgress
       VerificationProgress Type_ SecretShares SecretThreshold Nonce Backup
       StoredShares VerificationRequired VerificationNonce Name v_Type
       v_SecretShares v_SecretThreshold v_PGPKeys v_Nonce v_Backup
       v_StoredShares v_VerificationRequired v_VerificationKey
       v_VerificationNonce v_Name].
  by rewrite !contents_cloned.
Qed.

Lemma array_of_cloned {A} (st : store A) s a :
  array_of (cloned_slice st s) = Some a → a = length st.
Proof.
  unfold cloned_slice. destruct (0 <? len s); [|done]. by intros [= <-].
Qed.

(** The value of the clone depends only on the two arrays allocated for
    it. *)
Lemma value_cloned_frame h c h' :
  (∀ a, a = length (h_str h) → h_str h' !! a = h_str (cloned_heap h c) !! a) →
  (∀ a, a = length (h_byte h) → h_byte h' !! a = h_byte (cloned_heap h c) !! a) →
  value h' (cloned_cfg h c) = value (cloned_heap h c) (cloned_cfg h c).
Proof.
  intros Hs Hb. unfold value, cloned_cfg.
  cbn [PGPKeys VerificationKey RekeyProgress VerificationProgress].
  f_equal.
  - destruct (cloned_slice (h_str h) (PGPKeys c)) as [|a0 off n cap] eqn:E;
      [done|].
    unfold contents. rewrite Hs; [done|]. apply (array_of_cloned _ (PGPKeys c)).
    by rewrite E.
  - destruct (cloned_slice (h_byte h) (VerificationKey c)) as [|a0 off n cap] eqn:E;
      [done|].
    unfold contents. rewrite Hb; [done|].
    apply (array_of_cloned _ (VerificationKey c)). by rewrite E.
Qed.

Lemma lookup_cloned_original h a c :
  h_cfg h !! a = Some c → h_cfg (cloned_heap h c) !! a = Some c.
Proof. intros Hc. by apply lookup_app_l_Some. Qed.

Lemma lookup_cloned_clone h c :
  h_cfg (cloned_heap h c) !! length (h_cfg h) = Some (cloned_cfg h c).
Proof. by apply list_lookup_middle. Qed.

(** A change made through the clone is not seen through the original. *)
Lemma mutate_clone_frame h a c m h2 :
  h_cfg h !! a = Some c → valid_cfg h c →
  mutate (Some (length (h_cfg h))) m (cloned_heap h c) = Some (tt, h2) →
  deref h2 (Some a) = Some (value h c).
Proof.
  intros Hc Hvc Hm.
  assert (Ha : a < length (h_cfg h)) by by eapply lookup_lt_Some.
  assert (Hgoal : h_cfg h2 !! a = Some c ∧ agree (h_str h) (h_str h2) ∧
                  agree (h_byte h) (h_byte h2) ∧ h_share h2 = h_share h).
  { destruct m as [i v|i b|s|s]; unfold mutate in Hm.
    - erewrite bind_run in Hm by (apply load_run, lookup_cloned_clone).
      unfold setString in Hm.
      destruct (setIndex _ _ i v) as [st'|] eqn:E; [|discriminate].
      injection Hm as <-. cbn [h_cfg h_str h_byte h_share].
      apply setIndex_spec in E as (a0 & Ha0 & _ & _ & Hother).
      apply array_of_cloned in Ha0 as ->.
      split_and!; [by apply lookup_cloned_original| |apply agree_app|done].
      intros a' Ha'. rewrite Hother by lia. by apply agree_app.
    - erewrite bind_run in Hm by (apply load_run, lookup_cloned_clone).
      unfold setByte in Hm.
      destruct (setIndex _ _ i b) as [st'|] eqn:E; [|discriminate].
      injection Hm as <-. cbn [h_cfg h_str h_byte h_share].
      apply setIndex_spec in E as (a0 & Ha0 & _ & _ & Hother).
      apply array_of_cloned in Ha0 as ->.
      split_and!; [by apply lookup_cloned_original|apply agree_app| |done].
      intros a' Ha'. rewrite Hother by lia. by apply agree_app.
    - erewrite assign_run in Hm by apply lookup_cloned_clone.
      injection Hm as <-. cbn [h_cfg h_str h_byte h_share].
      split_and!; [|apply agree_app|apply agree_app|done].
      rewrite list_lookup_alter_ne by lia. by apply lookup_cloned_original.
    - erewrite assign_run in Hm by apply lookup_cloned_clone.
      injection Hm as <-. cbn [h_cfg h_str h_byte h_share].
      split_and!; [|apply agree_app|apply agree_app|done].
      rewrite list_lookup_alter_ne by lia. by apply lookup_cloned_original. }
  destruct Hgoal as (Hc2 & Hs & Hb & Hsh).
  unfold deref. cbn [mbind option_bind]. rewrite Hc2. cbn [mbind option_bind].
  f_equal. by apply value_agree.
Qed.

(** A change made through the original is not seen through the clone. *)
Lemma mutate_original_frame h a c m h2 :
  h_cfg h !! a = Some c → valid_cfg h c →
  mutate (Some a) m (cloned_heap h c) = Some (tt, h2) →
  deref h2 (Some (length (h_cfg h))) = Some (without_progress (value h c)).
Proof.
  intros Hc Hvc Hm.
  assert (Ha : a < length (h_cfg h)) by by eapply lookup_lt_Some.
  assert (Hgoal : h_cfg h2 !! length (h_cfg h) = Some (cloned_cfg h c) ∧
    (∀ a0, a0 = length (h_str h) →
           h_str h2 !! a0 = h_str (cloned_heap h c) !! a0) ∧
    (∀ a0, a0 = length (h_byte h) →
           h_byte h2 !! a0 = h_byte (cloned_heap h c) !! a0)).
  { destruct Hvc as (Hk & Hv & _).
    destruct m as [i v|i b|s|s]; unfold mutate in Hm.
    - erewrite bind_run in Hm by (by apply load_run, lookup_cloned_original).
      unfold setString in Hm.
      destruct (setIndex _ _ i v) as [st'|] eqn:E; [|discriminate].
      injection Hm as <-. cbn [h_cfg h_str h_byte h_share].
      apply setIndex_spec in E as (a0 & Ha0 & _ & _ & Hother).
      apply (valid_allocated _ _ _ Hk) in Ha0.
      split_and!; [apply lookup_cloned_clone| |done].
      intros ? ->. apply Hother. lia.
    - erewrite bind_run in Hm by (by apply load_run, lookup_cloned_original).
      unfold setByte in Hm.
      destruct (setIndex _ _ i b) as [st'|] eqn:E; [|discriminate].
      injection Hm as <-. cbn [h_cfg h_str h_byte h_share].
      apply setIndex_spec in E as (a0 & Ha0 & _ & _ & Hother).
      apply (valid_allocated _ _ _ Hv) in Ha0.
      split_and!; [apply lookup_cloned_clone|done|].
      intros ? ->. apply Hother. lia.
    - erewrite assign_run in Hm by (by apply lookup_cloned_original).
      injection Hm as <-. cbn [h_cfg h_str h_byte h_share].
      split_and!; [|done|done].
      rewrite list_lookup_alter_ne by lia. apply lookup_cloned_clone.
    - erewrite assign_run in Hm by (by apply lookup_cloned_original).
      injection Hm as <-. cbn [h_cfg h_str h_byte h_share].
      split_and!; [|done|done].
      rewrite list_lookup_alter_ne by lia. apply lookup_cloned_clone. }
  destruct Hgoal as (Hc2 & Hs & Hb).
  unfold deref. cbn [mbind option_bind]. rewrite Hc2. cbn [mbind option_bind].
  f_equal. rewrite (value_cloned_frame h c h2 Hs Hb). by apply value_cloned.
Qed.

Lemma cloned_heap_kept h a c :
  h_cfg h !! a = Some c →
  structs_kept h a c (cloned_heap h c) ∧
  original_intact h (cloned_heap h c) ∧ clone_intact h c (cloned_heap h c).
Proof.
  intros Hc. split; [|split].
  - split_and!; [by apply lookup_cloned_original|apply lookup_cloned_clone|done].
  - split; apply agree_app.
  - done.
Qed.

(** An element write through the clone lands in an array of the clone. *)
Lemma write_clone_step h a c m h2 h3 :
  element_write m → structs_kept h a c h2 → original_intact h h2 →
  mutate (Some (length (h_cfg h))) m h2 = Some (tt, h3) →
  structs_kept h a c h3 ∧ original_intact h h3.
Proof.
  intros Hw (Ha & Hp & Hsh) (Hs & Hb) Hm.
  destruct m as [i v|i b|s|s]; try done; unfold mutate in Hm;
    erewrite bind_run in Hm by (apply load_run; exact Hp).
  - unfold setString in Hm.
    destruct (setIndex _ _ i v) as [st'|] eqn:E; [|discriminate].
    injection Hm as <-. split; [done|]. split; [|done].
    cbn [h_str]. apply setIndex_spec in E as (a0 & Ha0 & _ & _ & Hother).
    apply array_of_cloned in Ha0 as ->.
    intros a' Ha'. rewrite Hother by lia. by apply Hs.
  - unfold setByte in Hm.
    destruct (setIndex _ _ i b) as [st'|] eqn:E; [|discriminate].
    injection Hm as <-. split; [done|]. split; [done|].
    cbn [h_byte]. apply setIndex_spec in E as (a0 & Ha0 & _ & _ & Hother).
    apply array_of_cloned in Ha0 as ->.
    intros a' Ha'. rewrite Hother by lia. by apply Hb.
Qed.

(** An element write through the original lands in an array allocated
    before the call. *)
Lemma write_original_step h a c m h2 h3 :
  valid_cfg h c →
  element_write m → structs_kept h a c h2 → clone_intact h c h2 →
  mutate (Some a) m h2 = Some (tt, h3) →
  structs_kept h a c h3 ∧ clone_intact h c h3.
Proof.
  intros (Hk & Hv & _) Hw (Ha & Hp & Hsh) (Hs & Hb) Hm.
  destruct m as [i v|i b|s|s]; try done; unfold mutate in Hm;
    erewrite bind_run in Hm by (apply load_run; exact Ha).
  - unfold setString in Hm.
    destruct (setIndex _ _ i v) as [st'|] eqn:E; [|discriminate].
    injection Hm as <-. split; [done|]. split; [|done].
    cbn [h_str]. apply setIndex_spec in E as (a0 & Ha0 & _ & _ & Hother).
    apply (valid_allocated _ _ _ Hk) in Ha0.
    rewrite Hother by lia. exact Hs.
  - unfold setByte in Hm.
    destruct (setIndex _ _ i b) as [st'|] eqn:E; [|discriminate].
    injection Hm as <-. split; [done|]. split; [done|].
    cbn [h_byte]. apply setIndex_spec in E as (a0 & Ha0 & _ & _ & Hother).
    apply (valid_allocated _ _ _ Hv) in Ha0.
    rewrite Hother by lia. exact Hb.
Qed.

Lemma writes_clone_run h a c ms : ∀ h2 h3,
  Forall element_write ms → structs_kept h a c h2 → original_intact h h2 →
  mutate_all (Some (length (h_cfg h))) ms h2 = Some (tt, h3) →
  structs_kept h a c h3 ∧ original_intact h h3.
Proof.
  induction ms as [|m ms IH]; intros h2 h3 Hws Hk Ho; simpl.
  - by intros [= <-].
  - apply Forall_cons in Hws as [Hw Hws]. unfold bind.
    destruct (mutate _ m h2) as [[[] h']|] eqn:E; [|discriminate].
    destruct (write_clone_step h a c m h2 h' Hw Hk Ho E) as [Hk' Ho'].
    by apply IH.
Qed.

Lemma writes_original_run h a c ms : ∀ h2 h3,
  valid_cfg h c →
  Forall element_write ms → structs_kept h a c h2 → clone_intact h c h2 →
  mutate_all (Some a) ms h2 = Some (tt, h3) →
  structs_kept h a c h3 ∧ clone_intact h c h3.
Proof.
  induction ms as [|m ms IH]; intros h2 h3 Hvc Hws Hk Ho; simpl.
  - by intros [= <-].
  - apply Forall_cons in Hws as [Hw Hws]. unfold bind.
    destruct (mutate _ m h2) as [[[] h']|] eqn:E; [|discriminate].
    destruct (write_original_step h a c m h2 h' Hvc Hw Hk Ho E) as [Hk' Ho'].
    by apply IH.
Qed.

Lemma deref_original h a c h2 :
  valid_cfg h c → structs_kept h a c h2 → original_intact h h2 →
  deref h2 (Some a) = Some (value h c).
Proof.
  intros Hvc (Ha & _ & Hsh) (Hs & Hb).
  unfold deref. cbn [mbind option_bind]. rewrite Ha. cbn [mbind option_bind].
  f_equal. by apply value_agree.
Qed.

Lemma deref_clone h a c h2 :
  valid_cfg h c → structs_kept h a c h2 → clone_intact h c h2 →
  deref h2 (Some (length (h_cfg h))) = Some (without_progress (value h c)).
Proof.
  intros Hvc (_ & Hp & _) (Hs & Hb).
  unfold deref. cbn [mbind option_bind]. rewrite Hp. cbn [mbind option_bind].
  f_equal. rewrite (value_cloned_frame h c h2); [by apply value_cloned| |].
  - by intros ? ->.
  - by intros ? ->.
Qed.

(** C8: the clone [Clone] returns has nil [RekeyProgress] and
    [VerificationProgress], whatever shares the receiver has accumulated;
    its scalar fields are those of the receiver, and its [PGPKeys] and
    [VerificationKey] hold the same elements. *)
Theorem Clone_drops_progress h a c :
  h_cfg h !! a = Some c → valid_cfg h c →
  ∃ p h1 c1,
    Clone (Some a) h = Some (Some p, h1) ∧ h_cfg h1 !! p = Some c1 ∧
    RekeyProgress c1 = nilSlice ∧ VerificationProgress c1 = nilSlice ∧
    (Type_ c1 = Type_ c ∧ SecretShares c1 = SecretShares c ∧
     SecretThreshold c1 = SecretThreshold c ∧ Nonce c1 = Nonce c ∧
     Backup c1 = Backup c ∧ StoredShares c1 = StoredShares c ∧
     VerificationRequired c1 = VerificationRequired c ∧
     VerificationNonce c1 = VerificationNonce c ∧ Name c1 = Name c) ∧
    contents (h_str h1) (PGPKeys c1) = contents (h_str h) (PGPKeys c) ∧
    contents (h_byte h1) (VerificationKey c1)
      = contents (h_byte h) (VerificationKey c).
Proof.
  intros Hc Hvc. pose proof Hvc as (Hk & Hv & _).
  exists (length (h_cfg h)), (cloned_heap h c), (cloned_cfg h c).
  split; [by apply Clone_run|].
  split; [apply lookup_cloned_clone|].
  split; [done|]. split; [done|]. split; [by split_and!|].
  split; by apply contents_cloned.
Qed.

(** C3, as amended: the clone is a new struct whose [PGPKeys] and
    [VerificationKey] sit in arrays allocated by the call; its value is
    the value of the receiver with both progress lists emptied; the
    receiver is as before.  Any run of element writes to [PGPKeys] or
    [VerificationKey] made through one of the two pointers leaves the
    value behind the other as it was, and so does the assignment of
    another slice to one of these fields. *)
Theorem Clone_independent h a c :
  h_cfg h !! a = Some c → valid_cfg h c →
  ∃ p h1 c1,
    Clone (Some a) h = Some (Some p, h1) ∧
    h_cfg h !! p = None ∧ h_cfg h1 !! p = Some c1 ∧
    (∀ a0, array_of (PGPKeys c1) = Some a0 → h_str h !! a0 = None) ∧
    (∀ a0, array_of (VerificationKey c1) = Some a0 → h_byte h !! a0 = None) ∧
    value h1 c1 = without_progress (value h c) ∧
    deref h1 (Some a) = Some (value h c) ∧
    (∀ ms h2, Forall element_write ms →
              mutate_all (Some p) ms h1 = Some (tt, h2) →
              deref h2 (Some a) = Some (value h c)) ∧
    (∀ ms h2, Forall element_write ms →
              mutate_all (Some a) ms h1 = Some (tt, h2) →
              deref h2 (Some p) = Some (value h1 c1)) ∧
    (∀ m h2, mutate (Some p) m h1 = Some (tt, h2) →
             deref h2 (Some a) = Some (value h c)) ∧
    (∀ m h2, mutate (Some a) m h1 = Some (tt, h2) →
             deref h2 (Some p) = Some (value h1 c1)).
Proof.
  intros Hc Hvc. pose proof Hvc as (Hk & Hv & _).
  destruct (cloned_heap_kept h a c Hc) as (Hkept & Horig & Hclone).
  exists (length (h_cfg h)), (cloned_heap h c), (cloned_cfg h c).
  split; [by apply Clone_run|].
  split; [by apply lookup_ge_None_2|].
  split; [apply lookup_cloned_clone|].
  split.
  { intros a0 ->%array_of_cloned. by apply lookup_ge_None_2. }
  split.
  { intros a0 ->%array_of_cloned. by apply lookup_ge_None_2. }
  split; [by apply value_cloned|].
  split; [by apply (deref_original h a c)|].
  rewrite value_cloned by done.
  split.
  { intros ms h2 Hws Hrun.
    destruct (writes_clone_run h a c ms _ _ Hws Hkept Horig Hrun).
    by apply (deref_original h a c). }
  split.
  { intros ms h2 Hws Hrun.
    destruct (writes_original_run h a c ms _ _ Hvc Hws Hkept Hclone Hrun).
    by apply (deref_clone h a c). }
  split.
  - intros m h2. by apply mutate_clone_frame.
  - intros m h2 Hm. by eapply mutate_original_frame.
Qed.

Lemma valid_config1 : valid_cfg heap1 config1.
Proof.
  repeat split; simpl; try lia; repeat constructor; simpl; lia.
Qed.

Lemma valid_config2 k0 k1 : valid_cfg (heap2 k0 k1) config2.
Proof.
  repeat split; simpl; try lia; repeat constructor; simpl; lia.
Qed.

Lemma Clone_drops_progress_witness :
  ∃ p h1 c1,
    Clone (Some 0) heap1 = Some (Some p, h1) ∧ h_cfg h1 !! p = Some c1 ∧
    RekeyProgress c1 = nilSlice ∧ VerificationProgress c1 = nilSlice ∧
    (Type_ c1 = "shamir" ∧ SecretShares c1 = 5%Z ∧
     SecretThreshold c1 = 3%Z ∧ Nonce c1 = "nonce-1" ∧
     Backup c1 = false ∧ StoredShares c1 = 0%Z ∧
     VerificationRequired c1 = true ∧
     VerificationNonce c1 = "vnonce-1" ∧ Name c1 = "seal") ∧
    contents (h_str h1) (PGPKeys c1) = [] ∧
    contents (h_byte h1) (VerificationKey c1) = [Byte.xaa; Byte.xbb].
Proof.
  exact (Clone_drops_progress heap1 0 config1 eq_refl valid_config1).
Defined.

Lemma Clone_independent_witness :
  ∃ p h1,
    Clone (Some 0) (heap2 "k0" "k1") = Some (Some p, h1) ∧
    deref h1 (Some p)
      = Some (without_progress (value (heap2 "k0" "k1") config2)) ∧
    (∀ h2, mutate_all (Some p)
             [SetPGPKey 1 "x"; SetVerificationKeyByte 0 Byte.xff] h1
           = Some (tt, h2) →
           deref h2 (Some 0) = Some (value (heap2 "k0" "k1") config2)) ∧
    (∀ h2, mutate_all (Some 0)
             [SetPGPKey 1 "x"; SetVerificationKeyByte 0 Byte.xff] h1
           = Some (tt, h2) →
           deref h2 (Some p) = deref h1 (Some p)).
Proof.
  destruct (Clone_independent (heap2 "k0" "k1") 0 config2 eq_refl
              (valid_config2 "k0" "k1"))
    as (p & h1 & c1 & Hrun & _ & Hp & _ & _ & Hval & _ & Hclone & Horig & _).
  assert (Hd : deref h1 (Some p)
               = Some (without_progress (value (heap2 "k0" "k1") config2))).
  { unfold deref. cbn [mbind option_bind]. rewrite Hp. cbn [mbind option_bind].
    by rewrite Hval. }
  exists p, h1. split; [exact Hrun|]. split; [exact Hd|]. split.
  - intros h2. apply Hclone. by repeat constructor.
  - intros h2 Hm. rewrite Hd, <- Hval. revert Hm. apply Horig.
    by repeat constructor.
Defined.

(** C3, the claim as stated fails: the clone of a configuration with two
    submitted shares is not deep-equal to it, since its [RekeyProgress]
    is empty. *)
Lemma Clone_not_deep_equal :
  ∃ p h1, Clone (Some 0) heap1 = Some (p, h1) ∧
          deref h1 p ≠ deref heap1 (Some 0).
Proof.
  eexists _, _. split; [reflexivity|]. vm_compute. intros [=].
Qed.

End clone_facts.

(** ** The seal types *)

Module seal_type_facts.
Import golang vault samples.

Section constants.
Context `{Wrapping}.

Lemma IsSameAs_true s t : IsSameAs s t = true ↔ s = t.
Proof. unfold IsSameAs, String_. apply bool_decide_eq_true. Qed.

(** C4, as amended: [SealConfigTypeRecovery] is the same value as
    [SealConfigTypeShamir], so [IsSameAs] answers for it what it answers
    for Shamir, and true against the Shamir tag; [IsSameAs] is equality
    of the strings behind the tags; and the eight other tags are pairwise
    distinct as soon as the wrapper library gives its six types
    different names, none of them multiseal or unsupported. *)
Theorem Recovery_is_Shamir :
  NoDup [ "multiseal"; WrapperTypeShamir; WrapperTypePkcs11;
          WrapperTypeAwsKms; WrapperTypeHsmAuto; WrapperTypeTransit;
          WrapperTypeGcpCkms; "unsupported" ] →
  NoDup [ SealConfigTypeMultiseal; SealConfigTypeShamir;
          SealConfigTypePkcs11; SealConfigTypeAwsKms;
          SealConfigTypeHsmAutoDeprecated; SealConfigTypeTransit;
          SealConfigTypeGcpCkms; SealConfigTypeRecoveryUnsupported ] ∧
  SealConfigTypeRecovery = SealConfigTypeShamir ∧
  IsSameAs SealConfigTypeRecovery (String_ SealConfigTypeShamir) = true ∧
  (∀ t, IsSameAs SealConfigTypeRecovery t = IsSameAs SealConfigTypeShamir t) ∧
  (∀ s t, IsSameAs s t = true ↔ String_ s = t).
Proof.
  intros Hnames. split; [exact Hnames|]. split; [reflexivity|].
  split; [by apply IsSameAs_true|]. split; [reflexivity|].
  intros s t. apply IsSameAs_true.
Qed.

End constants.

Lemma sample_names_distinct :
  NoDup [ "multiseal"; "shamir"; "pkcs11"; "awskms"; "hsm-auto"; "transit";
          "gcpckms"; "unsupported" ]%string.
Proof.
  repeat (apply NoDup_cons; split;
          [rewrite ?elem_of_cons, elem_of_nil; intros Hin;
           repeat (destruct Hin as [Hin|Hin]; [discriminate Hin|]); exact Hin|]).
  apply NoDup_nil. done.
Qed.

Lemma Recovery_is_Shamir_witness :
  @SealConfigTypeRecovery sampleWrapping = "shamir" ∧
  IsSameAs (@SealConfigTypeRecovery sampleWrapping) "shamir" = true.
Proof.
  pose proof (@Recovery_is_Shamir sampleWrapping sample_names_distinct)
    as (_ & Hrec & Hsame & _).
  exact (conj Hrec Hsame).
Defined.

(** C4, the claim as stated fails: Recovery is not a tag of its own.
    With the names of go-kms-wrapping, the nine tags are not pairwise
    distinct, and comparing Recovery against the Shamir tag gives true. *)
Lemma Recovery_not_distinct :
  ¬ NoDup [ @SealConfigTypeShamir sampleWrapping; SealConfigTypeMultiseal;
            @SealConfigTypeRecovery sampleWrapping;
            @SealConfigTypePkcs11 sampleWrapping;
            @SealConfigTypeAwsKms sampleWrapping;
            @SealConfigTypeHsmAutoDeprecated sampleWrapping;
            @SealConfigTypeTransit sampleWrapping;
            @SealConfigTypeGcpCkms sampleWrapping;
            SealConfigTypeRecoveryUnsupported ] ∧
  IsSameAs (@SealConfigTypeRecovery sampleWrapping)
           (String_ (@SealConfigTypeShamir sampleWrapping)) = true.
Proof.
  split; [|reflexivity].
  intros [Hnotin _]%NoDup_cons. apply Hnotin.
  apply elem_of_cons. right. apply elem_of_cons. left. reflexivity.
Qed.

End seal_type_facts.

(** ** Root credentials *)

Module root_credential_facts.
Import golang logical samples.

Lemma int64_small z :
  (- 2 ^ 63 ≤ z < 2 ^ 63)%Z → int64 z = z.
Proof.
  intros Hz. unfold int64. rewrite Z.mod_small; lia.
Qed.

Lemma seconds_fit n :
  (-9223372036 ≤ n ≤ 9223372036)%Z →
  mulDuration (toDuration n) Second = (n * 1000000000)%Z.
Proof.
  intros Hn. unfold mulDuration, toDuration, Second.
  rewrite (int64_small n) by lia. apply int64_small. lia.
Qed.

Section root_credential.
Context `{Scheduler}.

(** C9: [Validate] on a root credential returns nil for every receiver,
    the nil pointer and the zero value included. *)
Theorem RootCredential_Validate_nil (s : option RootCredential) :
  Validate s = None.
Proof. reflexivity. Qed.

(** C10, as amended: [GetRootCredential] returns an error exactly when
    the schedule is a non-empty string that the parser rejects, and then
    no credential.  Otherwise the credential has the given path and name
    and an empty rotation id; its schedule records the schedule string,
    has zero next and last rotation times, and its cron schedule is nil
    for the empty string and what the parser returned otherwise (so nil
    exactly for the empty string when the parser returns no nil schedule
    without an error).  The rotation window and the TTL are the given
    integers times 10^9 nanoseconds reduced to 64 bits: the given number
    of seconds when it is at most 9223372036 in absolute value. *)
Theorem GetRootCredential_spec rotationSchedule path credentialName
    (rotationWindow ttl : Z) :
  let r := GetRootCredential rotationSchedule path credentialName
             rotationWindow ttl in
  (r.2 ≠ None ↔ rotationSchedule ≠ "" ∧ (Parse rotationSchedule).2 ≠ None) ∧
  (r.2 ≠ None → r.1 = None) ∧
  (r.2 = None →
   ∃ c sched,
     r.1 = Some c ∧ RotationID c = "" ∧ Path c = path ∧
     Name c = credentialName ∧
     Schedule (RotationOptions_ c) = Some sched ∧
     RotationSchedule sched = rotationSchedule ∧
     NextVaultRotation sched = zeroTime ∧
     LastVaultRotation sched = zeroTime ∧
     Schedule_ sched
       = (if decide (rotationSchedule = "") then None
          else (Parse rotationSchedule).1) ∧
     ((∀ s sc, Parse s = (sc, None) → sc ≠ None) →
      (Schedule_ sched = None ↔ rotationSchedule = "")) ∧
     RotationWindow sched = int64 (int64 rotationWindow * 1000000000) ∧
     TTL sched = int64 (int64 ttl * 1000000000) ∧
     ((-9223372036 ≤ rotationWindow ≤ 9223372036)%Z →
      RotationWindow sched = (rotationWindow * 1000000000)%Z) ∧
     ((-9223372036 ≤ ttl ≤ 9223372036)%Z →
      TTL sched = (ttl * 1000000000)%Z)).
Proof.
  unfold GetRootCredential.
  destruct (String.eqb_spec rotationSchedule "") as [->|Hne]; cbn [negb].
  - cbn zeta. cbn [fst snd]. split; [split; [done|by intros [? _]]|].
    split; [done|]. intros _. eexists _, _.
    cbn [RotationID Path Name Schedule RotationOptions_ RotationSchedule
         NextVaultRotation LastVaultRotation Schedule_ RotationWindow TTL].
    split_and!; try reflexivity.
    + done.
    + apply seconds_fit.
    + apply seconds_fit.
  - destruct (Parse rotationSchedule) as [sc [e|]] eqn:HP; cbn zeta;
      cbn [fst snd].
    + split; [split; [done|discriminate]|]. split; [done|]. discriminate.
    + split; [split; [done|by intros [_ ?]]|]. split; [done|].
      intros _. eexists _, _.
      cbn [RotationID Path Name Schedule RotationOptions_ RotationSchedule
           NextVaultRotation LastVaultRotation Schedule_ RotationWindow TTL].
      split_and!; try reflexivity.
      * by rewrite decide_False.
      * intros Hparser. cbn [Schedule_]. split; [|done].
        intros Hnil. subst sc. by destruct (Hparser _ _ HP).
      * apply seconds_fit.
      * apply seconds_fit.
Qed.

End root_credential.

Lemma GetRootCredential_spec_witness :
  ∃ c sched,
    (@GetRootCredential sampleScheduler "0 3 * * 6" "aws/config/root"
       "root" 3600 86400).1 = Some c ∧
    Schedule (RotationOptions_ c) = Some sched ∧
    Schedule_ sched = Some ["0"; "3"; "*"; "*"; "6"]%string ∧
    RotationWindow sched = 3600000000000%Z ∧
    TTL sched = 86400000000000%Z.
Proof.
  destruct (proj2 (proj2 (@GetRootCredential_spec sampleScheduler
    "0 3 * * 6" "aws/config/root" "root" 3600 86400)) eq_refl)
    as (c & sched & Hc & _ & _ & _ & Hs & _ & _ & _ & Hcron & _ & _ & _ & Hw & Ht).
  exists c, sched. split; [exact Hc|]. split; [exact Hs|].
  split; [exact Hcron|]. split; [apply Hw; lia|apply Ht; lia].
Defined.

(** C10, the claim as stated fails: a rotation window of 9223372037
    seconds does not fit the 64-bit count of nanoseconds, and the
    credential records a negative duration. *)
Lemma GetRootCredential_window_wraps :
  ∃ c sched,
    @GetRootCredential sampleScheduler "" "aws/config/root" "root"
      9223372037 60 = (Some c, None) ∧
    Schedule (RotationOptions_ c) = Some sched ∧
    RotationWindow sched = (-9223372036709551616)%Z ∧
    RotationWindow sched ≠ (9223372037 * 1000000000)%Z.
Proof.
  eexists _, _. split; [reflexivity|]. split; [reflexivity|].
  split; [reflexivity|]. vm_compute. discriminate.
Qed.

End root_credential_facts.

(** ** The build status script *)

Module report_build_status_facts.
Import report_build_status.

(** A variable that is set to a non-empty string. *)
Definition set_and_not_null (e : env) (var : string) : Prop :=
  ∃ x, e !! var = Some x ∧ x ≠ "".

Lemma expand_null e var :
  expand e var = "" ↔ e !! var = None ∨ e !! var = Some "".
Proof.
  unfold expand. destruct (e !! var) as [x|]; simpl.
  - split; [intros ->; by right|by intros [|[= ->]]].
  - split; [by left|done].
Qed.

Lemma expand_not_null e var :
  expand e var ≠ "" ↔ set_and_not_null e var.
Proof.
  unfold expand, set_and_not_null. destruct (e !! var) as [x|]; simpl.
  - split; [by exists x|by intros (? & [= <-] & ?)].
  - split; [done|by intros (? & ? & _)].
Qed.

Lemma expand_insert_ne e k x var :
  k ≠ var → expand (<[k := x]> e) var = expand e var.
Proof. intros Hne. unfold expand. by rewrite lookup_insert_ne. Qed.

Lemma expand_insert_eq e k x : expand (<[k := x]> e) k = x.
Proof. unfold expand. by rewrite lookup_insert_eq. Qed.

Lemma prefix_app w s : String.prefix w s = true ↔ ∃ b, s = w +:+ b.
Proof.
  revert s. induction w as [|c w IH]; intros s.
  - destruct s; simpl; (split; [eauto|done]).
  - destruct s as [|d s]; simpl.
    + split; [done|]. by intros [b ?].
    + destruct (ascii_dec c d) as [->|Hne].
      * rewrite IH. split; intros [b Hb]; exists b; [by rewrite Hb|].
        by injection Hb.
      * split; [done|]. intros [b [= ? _]]. done.
Qed.

(** The pattern [*w*] matches exactly the strings in which [w] occurs. *)
Lemma contains_occurs w s :
  contains w s = true ↔ ∃ a b, s = a +:+ w +:+ b.
Proof.
  induction s as [|c s IH]; cbn [contains].
  - rewrite orb_false_r, prefix_app. split.
    + intros [b Hb]. by exists "", b.
    + intros (a & b & Hab). destruct a; [by exists b|done].
  - rewrite orb_true_iff, prefix_app, IH. split.
    + intros [[b Hb]|(a & b & Hab)].
      * by exists "", b.
      * exists (String c a), b. simpl. by rewrite Hab.
    + intros (a & b & Hab). destruct a as [|d a].
      * left. by exists b.
      * right. exists a, b. simpl in Hab. by injection Hab.
Qed.

Lemma first_null_None e vars :
  first_null e vars = None ↔ Forall (set_and_not_null e) vars.
Proof.
  induction vars as [|var vars IH]; simpl.
  - split; [constructor|done].
  - destruct (decide (expand e var = "")) as [Hnull|Hset].
    + split; [done|]. intros [Hv _]%Forall_cons.
      by apply expand_not_null in Hv.
    + rewrite IH. split.
      * intros HF. constructor; [by apply expand_not_null|done].
      * by intros [_ ?]%Forall_cons.
Qed.

Lemma first_null_Some e vars var :
  first_null e vars = Some var ↔
  ∃ before after, vars = before ++ var :: after ∧
                  Forall (set_and_not_null e) before ∧
                  (e !! var = None ∨ e !! var = Some "").
Proof.
  induction vars as [|v vars IH]; simpl.
  - split; [done|]. intros (before & after & Hv & _). by destruct before.
  - destruct (decide (expand e v = "")) as [Hnull|Hset].
    + split.
      * intros [= <-]. exists [], vars. split_and!; [done|constructor|].
        by apply expand_null.
      * intros (before & after & Hv & Hb & Hvar).
        destruct before as [|u before]; simpl in Hv.
        -- by injection Hv as -> _.
        -- injection Hv as -> _. apply Forall_cons in Hb as [Hu _].
           by apply expand_not_null in Hu.
    + rewrite IH. split.
      * intros (before & after & -> & Hb & Hvar).
        exists (v :: before), after. split_and!; [done| |done].
        constructor; [by apply expand_not_null|done].
      * intros (before & after & Hv & Hb & Hvar).
        destruct before as [|u before]; simpl in Hv.
        -- injection Hv as -> _. by apply expand_null in Hvar.
        -- injection Hv as -> ->. apply Forall_cons in Hb as [_ Hb].
           by exists before, after.
Qed.

(** The job names add no match: a job fails exactly when its result
    does. *)
Lemma failed_job_result r :
  failed ("ui:" +:+ r) = failed r ∧ failed ("artifacts:" +:+ r) = failed r ∧
  failed ("test:" +:+ r) = failed r ∧
  failed ("test-containers:" +:+ r) = failed r.
Proof. by split_and!. Qed.

Lemma failed_occurs r :
  failed r = false ↔
  ¬ ∃ a b, r = a +:+ "failure" +:+ b ∨ r = a +:+ "cancelled" +:+ b.
Proof.
  unfold failed. rewrite orb_false_iff, <- !not_true_iff_false.
  rewrite !contains_occurs. split.
  - intros [Hf Hc] (a & b & [Hr|Hr]); [apply Hf|apply Hc]; by exists a, b.
  - intros Hn. split; intros (a & b & Hr); apply Hn; exists a, b; [by left|by right].
Qed.

Lemma failed_jobs_nil e :
  failed_jobs e = [] ↔ Forall (λ job, failed job = false) (jobs e).
Proof.
  unfold failed_jobs. induction (jobs e) as [|job l IH].
  - split; [constructor|done].
  - rewrite filter_cons. destruct (decide (failed job = true)) as [Hf|Hf].
    + split; [done|]. intros [Hj _]%Forall_cons. congruence.
    + rewrite IH. split.
      * intros HF. constructor; [by destruct (failed job)|done].
      * by intros [_ ?]%Forall_cons.
Qed.

Definition success_body : string :=
  "Build Results:" +:+ LF +:+ "All builds succeeded! :white_check_mark:".

Lemma new_body_success e :
  new_body e = success_body ↔ failed_jobs e = [].
Proof.
  unfold new_body. destruct (failed_jobs e) as [|job l]; simpl.
  - done.
  - split; [|done]. unfold success_body, LF. simpl. intros [=].
Qed.

Lemma new_body_marker e :
  String.prefix ("Build Results:" +:+ LF) (new_body e) = true.
Proof.
  unfold new_body. apply prefix_app.
  destruct (length (failed_jobs e) =? 0); eexists; cbn; reflexivity.
Qed.

(** X1: the script aborts on the first of the variables GITHUB_TOKEN,
    RUN_ID, REPO, PR_NUMBER, BUILD_UI, BUILD_ARTIFACTS, TEST and
    TEST_CONTAINERS, in this order, that is not set or is empty, and
    names it.  When all eight are set to non-empty strings, it ends
    without posting if sourcing gh-comment.sh fails, and reaches the call
    that posts the comment if it succeeds; in no other case does it reach
    the call. *)
Theorem script_requires e sourced :
  let variables :=
    [ "GITHUB_TOKEN"; "RUN_ID"; "REPO"; "PR_NUMBER";
      "BUILD_UI"; "BUILD_ARTIFACTS"; "TEST"; "TEST_CONTAINERS" ] in
  (∀ var, script e sourced = parameter_null_or_not_set var ↔
     ∃ before after, variables = before ++ var :: after ∧
                     Forall (set_and_not_null e) before ∧
                     (e !! var = None ∨ e !! var = Some "")) ∧
  (script e sourced = source_failed ↔
   Forall (set_and_not_null e) variables ∧ sourced = false) ∧
  ((∃ repo pr_number search body,
      script e sourced = update_or_create_comment repo pr_number search body) ↔
   Forall (set_and_not_null e) variables ∧ sourced = true).
Proof.
  cbn zeta. change [ "GITHUB_TOKEN"; "RUN_ID"; "REPO"; "PR_NUMBER";
    "BUILD_UI"; "BUILD_ARTIFACTS"; "TEST"; "TEST_CONTAINERS" ] with required.
  unfold script. split; [|split].
  - intros var. rewrite <- first_null_Some.
    destruct (first_null e required) as [v|].
    + split; [by intros [= ->]|by intros [= ->]].
    + split; [by destruct sourced|done].
  - rewrite <- first_null_None.
    destruct (first_null e required) as [v|].
    + split; [done|by intros [? _]].
    + destruct sourced; split; [done|by intros [_ ?]|done|done].
  - rewrite <- first_null_None.
    destruct (first_null e required) as [v|].
    + split; [by intros (? & ? & ? & ? & ?)|by intros [? _]].
    + destruct sourced.
      * split; [done|]. intros _. by eexists _, _, _, _.
      * split; [by intros (? & ? & ? & ? & ?)|by intros [_ ?]].
Qed.

(** X2: when the script posts, it posts to the repository and pull
    request of the environment, both non-empty; the text it searches an
    earlier comment by is the first line of the body it posts, whatever
    the build results, so the next run finds this comment again. *)
Theorem script_comment_target e sourced repo pr_number search body :
  script e sourced = update_or_create_comment repo pr_number search body →
  e !! "REPO" = Some repo ∧ repo ≠ "" ∧
  e !! "PR_NUMBER" = Some pr_number ∧ pr_number ≠ "" ∧
  search = "Build Results:" ∧
  String.prefix (search +:+ LF) body = true.
Proof.
  unfold script. destruct (first_null e required) eqn:E; [done|].
  destruct sourced; [|done]. intros [= <- <- <- <-].
  apply first_null_None in E.
  assert (Hrepo : set_and_not_null e "REPO").
  { eapply Forall_forall; [exact E|]. unfold required. set_solver. }
  assert (Hpr : set_and_not_null e "PR_NUMBER").
  { eapply Forall_forall; [exact E|]. unfold required. set_solver. }
  destruct Hrepo as (r & Hr & ?), Hpr as (n & Hn & ?).
  unfold expand. rewrite Hr, Hn. simpl.
  split_and!; try done. apply new_body_marker.
Qed.

(** X3: the body is the success message exactly when none of the four
    results the script reads ([BUILD_UI], [BUILD_ARTIFACTS], [BUILD_TEST],
    [TEST_CONTAINERS]) contains the word failure or cancelled; otherwise
    it starts with the failure sentence.  The job names add no match of
    their own. *)
Theorem script_reports_failures e sourced repo pr_number search body :
  script e sourced = update_or_create_comment repo pr_number search body →
  let results := [ expand e "BUILD_UI"; expand e "BUILD_ARTIFACTS";
                   expand e "BUILD_TEST"; expand e "TEST_CONTAINERS" ] in
  (body = "Build Results:" +:+ LF +:+ "All builds succeeded! :white_check_mark:"
   ↔ Forall (λ r, ¬ ∃ a b, r = a +:+ "failure" +:+ b ∨ r = a +:+ "cancelled" +:+ b)
       results) ∧
  (body ≠ "Build Results:" +:+ LF +:+ "All builds succeeded! :white_check_mark:"
   → String.prefix ("Build Results:" +:+ LF +:+ "Build failed for these jobs: ")
       body = true).
Proof.
  unfold script. destruct (first_null e required) eqn:E; [done|].
  destruct sourced; [|done]. intros [= <- <- <- <-]. cbn zeta. split.
  - fold success_body. rewrite new_body_success, failed_jobs_nil.
    unfold jobs. rewrite !Forall_cons, !Forall_nil.
    rewrite (proj1 (failed_job_result _)).
    rewrite (proj1 (proj2 (failed_job_result _))).
    rewrite (proj1 (proj2 (proj2 (failed_job_result _)))).
    rewrite (proj2 (proj2 (proj2 (failed_job_result _)))).
    by rewrite !failed_occurs.
  - fold success_body. rewrite new_body_success. unfold new_body.
    destruct (failed_jobs e) as [|job l]; [done|]. intros _.
    apply prefix_app. eexists. cbn. reflexivity.
Qed.

(** X4: the variable [TEST] is required but never read: the job list
    takes the result of the test job from [BUILD_TEST].  Changing a
    non-empty [TEST] to any other non-empty value leaves the outcome of
    the script as it was. *)
Theorem script_ignores_TEST e sourced t :
  expand e "TEST" ≠ "" → t ≠ "" →
  script (<["TEST" := t]> e) sourced = script e sourced.
Proof.
  intros He Ht. unfold script, new_body, failed_jobs, jobs, required.
  cbn [first_null]. rewrite expand_insert_eq.
  rewrite !expand_insert_ne by done.
  rewrite (decide_False (P := t = "")) by done.
  by rewrite (decide_False (P := expand e "TEST" = "")) by done.
Qed.

(** A run in which the artifacts build failed and the container tests
    were cancelled, and one in which only [TEST] reports a failure. *)
Definition env1 : env :=
  list_to_map
    [ ("GITHUB_TOKEN", "ghs_token"); ("RUN_ID", "42");
      ("REPO", "hashicorp/vault"); ("PR_NUMBER", "7");
      ("BUILD_UI", "success"); ("BUILD_ARTIFACTS", "failure");
      ("TEST", "success"); ("BUILD_TEST", "success");
      ("TEST_CONTAINERS", "cancelled") ].

Definition env2 : env :=
  list_to_map
    [ ("GITHUB_TOKEN", "ghs_token"); ("RUN_ID", "43");
      ("REPO", "hashicorp/vault"); ("PR_NUMBER", "7");
      ("BUILD_UI", "success"); ("BUILD_ARTIFACTS", "success");
      ("TEST", "failure"); ("TEST_CONTAINERS", "success") ].

Lemma script_env1 :
  script env1 true
  = update_or_create_comment "hashicorp/vault" "7" "Build Results:"
      ("Build Results:" +:+ LF +:+ "Build failed for these jobs: "
       +:+ "artifacts:failure test-containers:cancelled"
       +:+ ". Please refer to this workflow to learn more: https://github.com/hashicorp/vault/actions/runs/42").
Proof. vm_compute. reflexivity. Qed.

Lemma script_comment_target_witness :
  env1 !! "REPO" = Some "hashicorp/vault" ∧ "hashicorp/vault" ≠ "" ∧
  env1 !! "PR_NUMBER" = Some "7" ∧ "7" ≠ "" ∧
  "Build Results:" = "Build Results:" ∧
  String.prefix ("Build Results:" +:+ LF)
    ("Build Results:" +:+ LF +:+ "Build failed for these jobs: "
     +:+ "artifacts:failure test-containers:cancelled"
     +:+ ". Please refer to this workflow to learn more: https://github.com/hashicorp/vault/actions/runs/42")
  = true.
Proof. exact (script_comment_target env1 true _ _ _ _ script_env1). Defined.

Lemma script_reports_failures_witness :
  String.prefix ("Build Results:" +:+ LF +:+ "Build failed for these jobs: ")
    ("Build Results:" +:+ LF +:+ "Build failed for these jobs: "
     +:+ "artifacts:failure test-containers:cancelled"
     +:+ ". Please refer to this workflow to learn more: https://github.com/hashicorp/vault/actions/runs/42")
  = true.
Proof.
  apply (proj2 (script_reports_failures env1 true _ _ _ _ script_env1)).
  vm_compute. discriminate.
Defined.

Lemma script_ignores_TEST_witness :
  script (<["TEST" := "success"]> env2) true = script env2 true ∧
  script env2 true
  = update_or_create_comment "hashicorp/vault" "7" "Build Results:"
      ("Build Results:" +:+ LF +:+ "All builds succeeded! :white_check_mark:").
Proof.
  split; [|vm_compute; reflexivity].
  apply (script_ignores_TEST env2 true "success"); [vm_compute|]; discriminate.
Defined.

End report_build_status_facts.

(** ** More on [Validate] and [Clone] *)

Module seal_config_more.
Import golang vault closed_forms slice_facts validate_facts clone_facts samples.

Lemma outcome_without_progress `{OpenPGP} v :
  outcome (without_progress v) = outcome v.
Proof. reflexivity. Qed.

Lemma valid_cloned_slice {A} (st : store A) s :
  valid st s → valid (st ++ cloned_arrays st s) (cloned_slice st s).
Proof.
  intros Hv. unfold cloned_arrays, cloned_slice.
  destruct (0 <? len s); [|done]. unfold valid.
  rewrite list_lookup_middle by done.
  rewrite length_contents by done. lia.
Qed.

(** [Clone] keeps the heap well formed. *)
Lemma valid_cloned h c :
  valid_cfg h c →
  valid_cfg (cloned_heap h c) c ∧ valid_cfg (cloned_heap h c) (cloned_cfg h c).
Proof.
  intros (Hk & Hv & Hr & Hp & Hrs & Hps). split.
  - unfold valid_cfg, cloned_heap. cbn [h_str h_byte h_share].
    split_and!; try done; try by apply valid_app.
    + eapply Forall_impl; [exact Hrs|]. intros s. apply valid_app.
    + eapply Forall_impl; [exact Hps|]. intros s. apply valid_app.
  - unfold valid_cfg, cloned_heap, cloned_cfg.
    cbn [h_str h_byte h_share PGPKeys VerificationKey RekeyProgress
         VerificationProgress].
    split_and!; try done; try by apply valid_cloned_slice.
    all: constructor.
Qed.

Section seal_config.
Context `{OpenPGP}.

Lemma parseable_decodes k :
  spec.parseable k = true ↔
  ∃ data entity, DecodeString k = Ok data ∧ ReadEntity data = Ok entity.
Proof.
  unfold spec.parseable. destruct (DecodeString k) as [data|err].
  - destruct (ReadEntity data) as [entity|err] eqn:E.
    + split; [by eexists _, _|done].
    + split; [done|]. intros (? & ? & [= <-] & ?). congruence.
  - split; [done|]. by intros (? & ? & ? & ?).
Qed.

(** X5: on an allocated configuration, [Validate] returns nil exactly
    when 1 <= threshold <= shares <= 255, the threshold is above one
    unless there is a single share, the stored shares are at most one
    (negative values included), and the key list is empty or has as many
    entries as there are shares, each of which decodes and parses. *)
Theorem Validate_accepts_iff h a c :
  h_cfg h !! a = Some c → valid (h_str h) (PGPKeys c) →
  let keys := contents (h_str h) (PGPKeys c) in
  Validate (Some a) h = Some (None, h) ↔
  (1 ≤ SecretThreshold c ∧ SecretThreshold c ≤ SecretShares c
   ∧ SecretShares c ≤ 255)%Z ∧
  (SecretShares c = 1 ∨ 1 < SecretThreshold c)%Z ∧
  (StoredShares c ≤ 1)%Z ∧
  (keys = [] ∨
   (Z.of_nat (length keys) = SecretShares c ∧
    ∀ k, k ∈ keys → ∃ data entity,
      DecodeString k = Ok data ∧ ReadEntity data = Ok entity)).
Proof.
  intros Hc Hv keys. rewrite (Validate_nil_iff h a c Hc Hv). fold keys.
  assert (Hparse : Forall (λ k, spec.parseable k = true) keys ↔
    ∀ k, k ∈ keys → ∃ data entity,
      DecodeString k = Ok data ∧ ReadEntity data = Ok entity).
  { rewrite Forall_forall.
    split; intros HF k Hk; apply parseable_decodes, HF, Hk. }
  by rewrite Hparse.
Qed.

(** X6: [Validate] reads four things only: the share count, the
    threshold, the stored shares and the key strings.  Two configurations
    that agree on them, in whatever heaps and whatever their type, name,
    nonces, flags and progress, get the same result. *)
Theorem Validate_reads_four_fields h a c h' a' c' :
  h_cfg h !! a = Some c → valid (h_str h) (PGPKeys c) →
  h_cfg h' !! a' = Some c' → valid (h_str h') (PGPKeys c') →
  SecretShares c = SecretShares c' →
  SecretThreshold c = SecretThreshold c' →
  StoredShares c = StoredShares c' →
  contents (h_str h) (PGPKeys c) = contents (h_str h') (PGPKeys c') →
  ∃ r, Validate (Some a) h = Some (r, h) ∧ Validate (Some a') h' = Some (r, h').
Proof.
  intros Hc Hv Hc' Hv' Hs Ht Hst Hk. exists (outcome (value h c)). split.
  - by apply Validate_run.
  - rewrite (Validate_run h' a' c' Hc' Hv'). f_equal. f_equal.
    unfold outcome, value.
    cbn [v_SecretShares v_SecretThreshold v_StoredShares v_PGPKeys].
    by rewrite Hs, Ht, Hst, Hk.
Qed.

(** X8: [Validate] and [Clone] commute: the clone of a well-formed
    configuration gets from [Validate] the result the original gets, and
    the original still gets it after the call. *)
Theorem Validate_Clone h a c :
  h_cfg h !! a = Some c → valid_cfg h c →
  ∃ p h1 r,
    Clone (Some a) h = Some (Some p, h1) ∧
    Validate (Some a) h = Some (r, h) ∧
    Validate (Some p) h1 = Some (r, h1) ∧
    Validate (Some a) h1 = Some (r, h1).
Proof.
  intros Hc Hvc. pose proof Hvc as (Hk & Hv & _).
  destruct (valid_cloned h c Hvc) as [Horig Hclone].
  exists (length (h_cfg h)), (cloned_heap h c), (outcome (value h c)).
  split; [by apply Clone_run|]. split; [by apply Validate_run|]. split.
  - rewrite (Validate_run _ _ (cloned_cfg h c) (lookup_cloned_clone h c));
      [|apply Hclone].
    by rewrite value_cloned.
  - rewrite (Validate_run _ _ c (lookup_cloned_original h a c Hc));
      [|apply Horig].
    f_equal. f_equal. f_equal.
    apply value_agree; [done|apply agree_app|apply agree_app|done].
Qed.

(** X7: whether [Validate] accepts does not depend on the order of the
    keys: with the same counts, a configuration is accepted exactly when
    one holding a permutation of its keys is. *)
Theorem Validate_key_order h a c h' a' c' :
  h_cfg h !! a = Some c → valid (h_str h) (PGPKeys c) →
  h_cfg h' !! a' = Some c' → valid (h_str h') (PGPKeys c') →
  SecretShares c = SecretShares c' →
  SecretThreshold c = SecretThreshold c' →
  StoredShares c = StoredShares c' →
  contents (h_str h) (PGPKeys c) ≡ₚ contents (h_str h') (PGPKeys c') →
  Validate (Some a) h = Some (None, h) ↔
  Validate (Some a') h' = Some (None, h').
Proof.
  intros Hc Hv Hc' Hv' Hs Ht Hst Hk.
  rewrite (Validate_nil_iff h a c Hc Hv), (Validate_nil_iff h' a' c' Hc' Hv').
  rewrite Hs, Ht, Hst.
  assert (Hnil : contents (h_str h) (PGPKeys c) = [] ↔
                 contents (h_str h') (PGPKeys c') = []).
  { split; intros Hnil; rewrite Hnil in Hk.
    - symmetry in Hk. by apply Permutation_nil_r in Hk.
    - by apply Permutation_nil_r in Hk. }
  by rewrite Hnil, (Permutation_length Hk), Hk.
Qed.

End seal_config.

(** X9: what [Clone] allocates: one struct, and one array for each of
    [PGPKeys] and [VerificationKey] that is not empty, holding its
    elements.  An empty slice, nil or not, is cloned as nil and costs no
    array; the arrays of shares are untouched. *)
Theorem Clone_allocation h a c :
  h_cfg h !! a = Some c → valid_cfg h c →
  ∃ p h1 c1,
    Clone (Some a) h = Some (Some p, h1) ∧
    h_cfg h1 = h_cfg h ++ [c1] ∧ h_share h1 = h_share h ∧
    (if decide (len (PGPKeys c) = 0)
     then PGPKeys c1 = nilSlice ∧ h_str h1 = h_str h
     else PGPKeys c1
            = mkSlice (length (h_str h)) 0 (len (PGPKeys c)) (len (PGPKeys c)) ∧
          h_str h1 = h_str h ++ [contents (h_str h) (PGPKeys c)]) ∧
    (if decide (len (VerificationKey c) = 0)
     then VerificationKey c1 = nilSlice ∧ h_byte h1 = h_byte h
     else VerificationKey c1
            = mkSlice (length (h_byte h)) 0 (len (VerificationKey c))
                (len (VerificationKey c)) ∧
          h_byte h1 = h_byte h ++ [contents (h_byte h) (VerificationKey c)]).
Proof.
  intros Hc Hvc. pose proof Hvc as (Hk & Hv & _).
  exists (length (h_cfg h)), (cloned_heap h c), (cloned_cfg h c).
  split; [by apply Clone_run|]. split; [done|]. split; [done|].
  unfold cloned_heap, cloned_cfg, cloned_slice, cloned_arrays.
  cbn [PGPKeys VerificationKey h_str h_byte].
  split.
  - destruct (decide (len (PGPKeys c) = 0)) as [->|Hne].
    + by rewrite app_nil_r.
    + by rewrite (proj2 (Nat.ltb_lt 0 _)) by lia.
  - destruct (decide (len (VerificationKey c) = 0)) as [->|Hne].
    + by rewrite app_nil_r.
    + by rewrite (proj2 (Nat.ltb_lt 0 _)) by lia.
Qed.

(** X10: [Clone] keeps the heap well formed: after the call every
    slice of the original and of the clone points into an allocated array
    and stays inside it; the clone's slices have the length of the
    original's and no spare capacity. *)
Theorem Clone_keeps_validity h a c :
  h_cfg h !! a = Some c → valid_cfg h c →
  ∃ p h1 c1,
    Clone (Some a) h = Some (Some p, h1) ∧ h_cfg h1 !! p = Some c1 ∧
    valid_cfg h1 c ∧ valid_cfg h1 c1 ∧
    cap (PGPKeys c1) = len (PGPKeys c1) ∧
    cap (VerificationKey c1) = len (VerificationKey c1) ∧
    len (PGPKeys c1) = len (PGPKeys c) ∧
    len (VerificationKey c1) = len (VerificationKey c).
Proof.
  intros Hc Hvc. pose proof Hvc as (Hk & Hv & _).
  destruct (valid_cloned h c Hvc) as [Horig Hclone].
  exists (length (h_cfg h)), (cloned_heap h c), (cloned_cfg h c).
  split; [by apply Clone_run|]. split; [apply lookup_cloned_clone|].
  split; [done|]. split; [done|].
  unfold cloned_cfg, cloned_slice. cbn [PGPKeys VerificationKey].
  destruct (Nat.ltb_spec 0 (len (PGPKeys c)));
    destruct (Nat.ltb_spec 0 (len (VerificationKey c))); simpl; lia.
Qed.

(** X11: cloning a clone changes nothing more: the second clone is a
    third struct with the value of the first clone, and the first clone
    and the original keep their values. *)
Theorem Clone_Clone h a c :
  h_cfg h !! a = Some c → valid_cfg h c →
  ∃ p1 h1 p2 h2,
    Clone (Some a) h = Some (Some p1, h1) ∧
    Clone (Some p1) h1 = Some (Some p2, h2) ∧
    p2 ≠ p1 ∧ p2 ≠ a ∧
    deref h2 (Some p2) = deref h1 (Some p1) ∧
    deref h2 (Some p1) = deref h1 (Some p1) ∧
    deref h2 (Some a) = Some (value h c).
Proof.
  intros Hc Hvc. pose proof Hvc as (Hk & Hv & _).
  assert (Ha : a < length (h_cfg h)) by by eapply lookup_lt_Some.
  destruct (valid_cloned h c Hvc) as [Horig Hclone].
  set (h1 := cloned_heap h c) in *. set (c1 := cloned_cfg h c) in *.
  assert (Hc1 : h_cfg h1 !! length (h_cfg h) = Some c1)
    by apply lookup_cloned_clone.
  destruct (valid_cloned h1 c1 Hclone) as [Hclone2 _].
  exists (length (h_cfg h)), h1, (length (h_cfg h1)), (cloned_heap h1 c1).
  split; [by apply Clone_run|].
  split; [apply Clone_run; [done|apply Hclone|apply Hclone]|].
  assert (Hlen : length (h_cfg h1) = S (length (h_cfg h))).
  { unfold h1, cloned_heap. cbn [h_cfg]. rewrite length_app. simpl. lia. }
  split; [lia|]. split; [lia|].
  assert (Hd1 : deref h1 (Some (length (h_cfg h)))
                = Some (without_progress (value h c))).
  { unfold deref. cbn [mbind option_bind]. rewrite Hc1.
    cbn [mbind option_bind]. f_equal. by apply value_cloned. }
  split_and!.
  - rewrite Hd1. unfold deref. cbn [mbind option_bind].
    rewrite lookup_cloned_clone. cbn [mbind option_bind]. f_equal.
    rewrite value_cloned by done. unfold c1, h1.
    by rewrite value_cloned.
  - unfold deref. cbn [mbind option_bind].
    rewrite (lookup_cloned_original h1 _ c1 Hc1), Hc1.
    cbn [mbind option_bind]. f_equal.
    apply value_agree; [done|apply agree_app|apply agree_app|done].
  - unfold deref. cbn [mbind option_bind].
    assert (Hca : h_cfg h1 !! a = Some c) by by apply lookup_cloned_original.
    assert (Hca2 : h_cfg (cloned_heap h1 c1) !! a = Some c).
    { unfold cloned_heap. cbn [h_cfg]. by apply lookup_app_l_Some. }
    rewrite Hca2. cbn [mbind option_bind].
    f_equal. transitivity (value h1 c).
    + apply value_agree; [done|apply agree_app|apply agree_app|done].
    + apply value_agree; [done|apply agree_app|apply agree_app|done].
Qed.

(** The counts and keys of [config2] under another name, with the keys in
    a window of a longer array, in this and in the opposite order. *)
Definition config5 : SealConfig :=
  mkSealConfig "pkcs11" 2 2 (mkSlice 0 1 2 2) "nonce-5" true 1
    nilSlice true nilSlice "vnonce-5" nilSlice "hsm".

Definition heap5 (k0 k1 : string) : heap :=
  mkHeap [config5] [ ["spare"; k0; k1] ] [] [].

Lemma valid_config5 k0 k1 : valid (h_str (heap5 k0 k1)) (PGPKeys config5).
Proof. simpl. lia. Qed.

Lemma valid_keys2 k0 k1 : valid (h_str (heap2 k0 k1)) (PGPKeys config2).
Proof. simpl. lia. Qed.

Lemma Validate_accepts_iff_witness :
  @Validate sampleOpenPGP (Some 0) (heap2 "k0" "k1")
  = Some (None, heap2 "k0" "k1").
Proof.
  apply (@Validate_accepts_iff sampleOpenPGP (heap2 "k0" "k1") 0 config2
           eq_refl (valid_keys2 "k0" "k1")).
  split_and!; simpl; try lia. right. split; [done|].
  intros k [->|[->|[]%elem_of_nil]%elem_of_cons]%elem_of_cons;
    by eexists _, _.
Defined.

Lemma Validate_reads_four_fields_witness :
  ∃ r, @Validate sampleOpenPGP (Some 0) (heap2 "k0" "!k1")
       = Some (r, heap2 "k0" "!k1") ∧
       @Validate sampleOpenPGP (Some 0) (heap5 "k0" "!k1")
       = Some (r, heap5 "k0" "!k1").
Proof.
  exact (@Validate_reads_four_fields sampleOpenPGP
           (heap2 "k0" "!k1") 0 config2 (heap5 "k0" "!k1") 0 config5
           eq_refl (valid_keys2 _ _) eq_refl (valid_config5 _ _)
           eq_refl eq_refl eq_refl eq_refl).
Defined.

Lemma Validate_key_order_witness :
  @Validate sampleOpenPGP (Some 0) (heap2 "k0" "k1")
  = Some (None, heap2 "k0" "k1") ↔
  @Validate sampleOpenPGP (Some 0) (heap5 "k1" "k0")
  = Some (None, heap5 "k1" "k0").
Proof.
  apply (@Validate_key_order sampleOpenPGP
           (heap2 "k0" "k1") 0 config2 (heap5 "k1" "k0") 0 config5
           eq_refl (valid_keys2 _ _) eq_refl (valid_config5 _ _)
           eq_refl eq_refl eq_refl).
  apply Permutation_swap.
Defined.

Lemma Validate_Clone_witness :
  ∃ p h1 r,
    Clone (Some 0) (heap2 "k0" "!k1") = Some (Some p, h1) ∧
    @Validate sampleOpenPGP (Some 0) (heap2 "k0" "!k1")
    = Some (r, heap2 "k0" "!k1") ∧
    @Validate sampleOpenPGP (Some p) h1 = Some (r, h1) ∧
    @Validate sampleOpenPGP (Some 0) h1 = Some (r, h1).
Proof.
  exact (@Validate_Clone sampleOpenPGP (heap2 "k0" "!k1") 0 config2 eq_refl
           (valid_config2 "k0" "!k1")).
Defined.

Lemma Clone_allocation_witness :
  ∃ p h1 c1,
    Clone (Some 0) heap1 = Some (Some p, h1) ∧
    h_cfg h1 = h_cfg heap1 ++ [c1] ∧ h_share h1 = h_share heap1 ∧
    (PGPKeys c1 = nilSlice ∧ h_str h1 = []) ∧
    (VerificationKey c1 = mkSlice 3 0 2 2 ∧
     h_byte h1 = h_byte heap1 ++ [[Byte.xaa; Byte.xbb]]).
Proof.
  exact (Clone_allocation heap1 0 config1 eq_refl valid_config1).
Defined.

Lemma Clone_keeps_validity_witness :
  ∃ p h1 c1,
    Clone (Some 0) heap1 = Some (Some p, h1) ∧ h_cfg h1 !! p = Some c1 ∧
    valid_cfg h1 config1 ∧ valid_cfg h1 c1 ∧
    cap (PGPKeys c1) = len (PGPKeys c1) ∧
    cap (VerificationKey c1) = len (VerificationKey c1) ∧
    len (PGPKeys c1) = 0 ∧ len (VerificationKey c1) = 2.
Proof.
  exact (Clone_keeps_validity heap1 0 config1 eq_refl valid_config1).
Defined.

Lemma Clone_Clone_witness :
  ∃ p1 h1 p2 h2,
    Clone (Some 0) heap1 = Some (Some p1, h1) ∧
    Clone (Some p1) h1 = Some (Some p2, h2) ∧
    p2 ≠ p1 ∧ p2 ≠ 0 ∧
    deref h2 (Some p2) = deref h1 (Some p1) ∧
    deref h2 (Some p1) = deref h1 (Some p1) ∧
    deref h2 (Some 0) = Some (value heap1 config1).
Proof.
  exact (Clone_Clone heap1 0 config1 eq_refl valid_config1).
Defined.

End seal_config_more.

(** ** More on [GetRootCredential] *)

Module root_credential_more.
Import golang logical samples.

Lemma int64_range z : (- 2 ^ 63 ≤ int64 z < 2 ^ 63)%Z.
Proof.
  unfold int64. pose proof (Z.mod_pos_bound (z + 2 ^ 63) (2 ^ 64)). lia.
Qed.

Lemma int64_exact z : int64 z = z ↔ (- 2 ^ 63 ≤ z < 2 ^ 63)%Z.
Proof.
  split.
  - intros <-. apply int64_range.
  - intros Hz. unfold int64. rewrite Z.mod_small; lia.
Qed.

Lemma int64_congruent z : ((int64 z - z) `mod` 2 ^ 64 = 0)%Z.
Proof.
  unfold int64. rewrite (Z.mod_eq (z + 2 ^ 63) (2 ^ 64)) by lia.
  replace (z + 2 ^ 63 - 2 ^ 64 * ((z + 2 ^ 63) `div` 2 ^ 64) - 2 ^ 63 - z)%Z
    with (- ((z + 2 ^ 63) `div` 2 ^ 64) * 2 ^ 64)%Z by lia.
  apply Z.mod_mul. lia.
Qed.

(** The seconds that fit a [time.Duration]. *)
Lemma seconds_exact n :
  (- 2 ^ 63 ≤ n < 2 ^ 63)%Z →
  mulDuration (toDuration n) Second = (n * 1000000000)%Z ↔
  (-9223372036 ≤ n ≤ 9223372036)%Z.
Proof.
  intros Hn. unfold mulDuration, toDuration, Second.
  rewrite (proj2 (int64_exact n) Hn), int64_exact. lia.
Qed.

Section root_credential.
Context `{Scheduler}.

(** The credential of a call that succeeds. *)
Lemma GetRootCredential_ok rotationSchedule path credentialName
    (rotationWindow ttl : Z) :
  (GetRootCredential rotationSchedule path credentialName rotationWindow ttl).2
    = None →
  (GetRootCredential rotationSchedule path credentialName rotationWindow ttl).1
  = Some (mkRootCredential
      (mkRotationOptions (Some (mkRootSchedule
         (if decide (rotationSchedule = "") then None
          else (Parse rotationSchedule).1)
         rotationSchedule
         (mulDuration (toDuration rotationWindow) Second)
         (mulDuration (toDuration ttl) Second) zeroTime zeroTime)))
      "" path credentialName).
Proof.
  unfold GetRootCredential.
  destruct (String.eqb_spec rotationSchedule "") as [->|Hne]; cbn [negb].
  - done.
  - rewrite decide_False by done.
    destruct (Parse rotationSchedule) as [sc [e|]]; [done|done].
Qed.

(** X12: the error [GetRootCredential] returns is the parser's own
    error, not wrapped, and only for a non-empty schedule; and exactly one
    of the credential and the error is nil. *)
Theorem GetRootCredential_error rotationSchedule path credentialName
    (rotationWindow ttl : Z) :
  let r := GetRootCredential rotationSchedule path credentialName
             rotationWindow ttl in
  (∀ e, r.2 = Some e ↔
        rotationSchedule ≠ "" ∧ (Parse rotationSchedule).2 = Some e) ∧
  (r.1 = None ↔ r.2 ≠ None).
Proof.
  unfold GetRootCredential.
  destruct (String.eqb_spec rotationSchedule "") as [->|Hne]; cbn [negb].
  - cbn zeta. cbn [fst snd]. split.
    + intros e. split; [done|by intros [? _]].
    + split; [done|done].
  - destruct (Parse rotationSchedule) as [sc [e0|]]; cbn zeta; cbn [fst snd].
    + split; [|done]. intros e. split; [by intros [= ->]|by intros [_ ?]].
    + split; [|done]. intros e. split; [done|by intros [_ ?]].
Qed.

(** X13: for rotation windows and TTLs that are Go integers of 64 bits,
    the duration recorded is the given number of seconds exactly when
    that number is at most 9223372036 in absolute value; in every case it
    is a 64-bit value congruent to the number times 10^9 modulo 2^64. *)
Theorem GetRootCredential_durations rotationSchedule path credentialName
    (rotationWindow ttl : Z) :
  (- 2 ^ 63 ≤ rotationWindow < 2 ^ 63)%Z → (- 2 ^ 63 ≤ ttl < 2 ^ 63)%Z →
  (GetRootCredential rotationSchedule path credentialName rotationWindow ttl).2
    = None →
  ∃ c sched,
    (GetRootCredential rotationSchedule path credentialName
       rotationWindow ttl).1 = Some c ∧
    Schedule (RotationOptions_ c) = Some sched ∧
    (RotationWindow sched = (rotationWindow * 1000000000)%Z ↔
     (-9223372036 ≤ rotationWindow ≤ 9223372036)%Z) ∧
    (TTL sched = (ttl * 1000000000)%Z ↔ (-9223372036 ≤ ttl ≤ 9223372036)%Z) ∧
    (- 2 ^ 63 ≤ RotationWindow sched < 2 ^ 63)%Z ∧
    (- 2 ^ 63 ≤ TTL sched < 2 ^ 63)%Z ∧
    ((RotationWindow sched - rotationWindow * 1000000000) `mod` 2 ^ 64 = 0)%Z ∧
    ((TTL sched - ttl * 1000000000) `mod` 2 ^ 64 = 0)%Z.
Proof.
  intros Hw Ht Hok. rewrite (GetRootCredential_ok _ _ _ _ _ Hok).
  eexists _, _. split; [reflexivity|]. split; [reflexivity|].
  cbn [RotationWindow TTL].
  split; [by apply seconds_exact|]. split; [by apply seconds_exact|].
  split; [apply int64_range|]. split; [apply int64_range|].
  unfold mulDuration, toDuration.
  rewrite (proj2 (int64_exact rotationWindow) Hw), (proj2 (int64_exact ttl) Ht).
  split; apply int64_congruent.
Qed.

End root_credential.

Lemma GetRootCredential_durations_witness :
  ∃ c sched,
    (@GetRootCredential sampleScheduler "0 3 * * 6" "aws/config/root"
       "root" 9223372036 (-5)).1 = Some c ∧
    Schedule (RotationOptions_ c) = Some sched ∧
    RotationWindow sched = 9223372036000000000%Z ∧
    TTL sched = (-5000000000)%Z.
Proof.
  destruct (@GetRootCredential_durations sampleScheduler "0 3 * * 6"
              "aws/config/root" "root" 9223372036 (-5)
              ltac:(lia) ltac:(lia) eq_refl)
    as (c & sched & Hc & Hs & Hw & Ht & _).
  exists c, sched. split; [exact Hc|]. split; [exact Hs|].
  split; [apply Hw; lia|apply Ht; lia].
Defined.

End root_credential_more.
